(** * CustomArgParse: a shallow embedding of [customargparse.py]

    The development follows the layout of the Python module:
    - Python values and insertion-ordered dictionaries,
    - the two transforms [flatten_keys] and [expand_dict] (with its local
      helper [merge_dicts]) and [args_to_dict],
    - the part of the standard [argparse] module that
      [CustomArgumentParser] drives (option registration with a conflict
      handler, and the parse loop for one-value options),
    - [CustomArgumentParser] itself: [__init__], [parse_known_args]
      and [parse_args]. *)

From Stdlib Require Import List String Ascii ZArith Bool Lia.
Import ListNotations.
Local Open Scope string_scope.
Local Open Scope list_scope.

(** ** Python values *)

(** The values a configuration mapping holds.  A [dict] keeps its entries
    in insertion order, as Python dictionaries do; its keys are strings
    (the docstring of [parse_known_args] requires this of the config).
    Values are trees: a value of this type stands for a Python object in
    which no dictionary object is bound at two positions.  Where the
    source updates a dictionary in place, the functions below return the
    updated value; the two agree on such objects, and the results that
    concern entries with mapping values are stated for flat mappings that
    hold none, where every dictionary is one the function itself has
    created. *)
Unset Elimination Schemes.
Inductive pyval : Type :=
| VNone
| VBool (b : bool)
| VInt (z : Z)
| VStr (s : string)
| VList (l : list pyval)
| VDict (d : list (string * pyval)).
Set Elimination Schemes.

Definition dict : Type := list (string * pyval).

(** [isinstance(v, dict)] *)
Definition is_dict (v : pyval) : bool :=
  match v with VDict _ => true | _ => false end.

(** [key in d] and [d[key]] *)
Fixpoint dict_get (key : string) (d : dict) : option pyval :=
  match d with
  | [] => None
  | (k, v) :: rest => if String.eqb key k then Some v else dict_get key rest
  end.

Definition dict_mem (key : string) (d : dict) : bool :=
  match dict_get key d with Some _ => true | None => false end.

(** [d[key] = v]: an existing key keeps its position, a new key goes last. *)
Fixpoint dict_set (key : string) (v : pyval) (d : dict) : dict :=
  match d with
  | [] => [(key, v)]
  | (k, x) :: rest =>
      if String.eqb key k then (k, v) :: rest
      else (k, x) :: dict_set key v rest
  end.

(** [dict(pairs)]: later pairs overwrite earlier ones. *)
Definition dict_of_pairs (pairs : list (string * pyval)) : dict :=
  fold_left (fun d kv => dict_set (fst kv) (snd kv) d) pairs [].

Definition keys (d : dict) : list string := map fst d.

(** A Python dictionary binds every key once, at every level of nesting. *)
Fixpoint nodupb (l : list string) : bool :=
  match l with
  | [] => true
  | x :: r => negb (existsb (String.eqb x) r) && nodupb r
  end.

Fixpoint wf_val (v : pyval) : bool :=
  match v with
  | VDict d =>
      nodupb (map fst d) && forallb (fun kv => wf_val (snd kv)) d
  | _ => true
  end.

Definition wf_dict (d : dict) : bool := wf_val (VDict d).

(** ** Strings *)

Definition dot : ascii := "."%char.

(** [key.split('.')] *)
Fixpoint split_dot (s : string) : list string :=
  match s with
  | EmptyString => [EmptyString]
  | String c r =>
      if Ascii.eqb c dot then EmptyString :: split_dot r
      else match split_dot r with
           | h :: t => String c h :: t
           | [] => [String c EmptyString]
           end
  end.

(** ['.' in s] *)
Fixpoint has_dot (s : string) : bool :=
  match s with
  | EmptyString => false
  | String c r => Ascii.eqb c dot || has_dot r
  end.

(** [sep.join(l)] *)
Fixpoint join (sep : string) (l : list string) : string :=
  match l with
  | [] => ""
  | [x] => x
  | x :: r => (x ++ sep ++ join sep r)%string
  end.

(** ** expand_dict and flatten_keys *)

(** [merge_dicts(d1, d2)], the local helper of [expand_dict].  The function
    recurses on the second dictionary; [merge_into v2 d1] is
    [merge_dicts(d1, d2)] for [v2 = VDict d2], and returns the value [d1]
    has after the call.  The in-place update
    [merge_dicts(d1[key], d2[key])] leaves [key] at its position in [d1].
    The source stores [d2[key]] in [d1] by reference and updates [d1[key]]
    in place; the value returned here is the value of the source's result
    as long as no dictionary object is bound at two positions of [d1] and
    [d2], as is the case for the dictionaries [expand_dict] builds from
    entries whose values are not mappings. *)
Fixpoint merge_into (v2 : pyval) (d1 : dict) : dict :=
  match v2 with
  | VDict d2 =>
      fold_left
        (fun d1 kv =>
           let key := fst kv in
           match dict_get key d1 with
           | Some x1 =>
               match x1, snd kv with
               | VDict s1, VDict _ =>
                   dict_set key (VDict (merge_into (snd kv) s1)) d1
               | _, _ => dict_set key (snd kv) d1
               end
           | None => dict_set key (snd kv) d1
           end)
        d2 d1
  | _ => d1
  end.

Definition merge_dicts (d1 d2 : dict) : dict := merge_into (VDict d2) d1.

(** The body of the outer loop of [expand_dict]: the chain of single-key
    dictionaries built from the reversed segments of [key]. *)
Definition build_child (key : string) (v : pyval) : dict :=
  let split_keys := rev (split_dot key) in
  fold_left (fun child i => [(i, VDict child)])
            (tl split_keys)
            [(hd "" split_keys, v)].

Definition expand_dict (b : dict) : dict :=
  fold_left (fun c kv => merge_dicts c (build_child (fst kv) (snd kv))) b [].

(** [flatten_keys(d)]; [flatten_val (VDict d)] is [flatten_keys(d)]. *)
Fixpoint flatten_val (v : pyval) : list (string * pyval) :=
  match v with
  | VDict d =>
      fold_left
        (fun lst (kv : string * pyval) =>
           let key := fst kv in
           match snd kv with
           | VDict _ =>
               lst ++ map (fun kv' : string * pyval =>
                             ((key ++ "." ++ fst kv')%string, snd kv'))
                          (flatten_val (snd kv))
           | x => lst ++ [(key, x)]
           end)
        d []
  | _ => []
  end.

Definition flatten_keys (d : dict) : list (string * pyval) :=
  flatten_val (VDict d).

(** [args_to_dict(args, expand)], on the namespace's dictionary [vars(args)]. *)
Definition args_to_dict (args : dict) (expand : bool) : dict :=
  if expand then expand_dict args else args.

(** ** Outcomes of the parser's operations *)

(** What an [ArgumentError] reports about an argument. *)
Inductive problem : Type :=
| InvalidValue (type_name value : string)
| ExpectedOneArgument
| IgnoredExplicitArgument (value : string)
| ConflictingOptionStrings (option_strings : list string).

(** The text handed to [ArgumentParser.error]: a literal message, or the
    rendering of an [ArgumentError] (argument name and problem). *)
Inductive error_text : Type :=
| Message (text : string)
| ArgumentError (argument_name : string) (p : problem).

(** What a [ValueError] of [add_argument] reports: no destination can be
    derived ([dest= is required for options like ...]), or a name does not
    start with a prefix character ([invalid option string ...]). *)
Inductive value_error : Type :=
| DestRequired (option_string : string)
| InvalidOptionString (option_string : string).

(** Python exceptions that leave the parser's methods as exceptions. *)
Inductive exception : Type :=
| ValueError (what : value_error)
| AttributeError (name : string)
| ConflictError (argument_name : string) (p : problem)
| ConfigLoadError.

(** [Exit] is [ArgumentParser.exit(status, message)]: [error(message)]
    exits with status 2, the help action with status 0 and no error text.
    [Unmodelled] marks a command line or a declaration that uses a feature
    of [argparse] left out of this development (see [Argparse]). *)
Inductive outcome (A : Type) : Type :=
| Ok (a : A)
| Exit (status : Z) (text : option error_text)
| Raise (e : exception)
| Unmodelled.

Arguments Ok {A} a.
Arguments Exit {A} status text.
Arguments Raise {A} e.
Arguments Unmodelled {A}.

Definition bind {A B : Type} (m : outcome A) (f : A -> outcome B) : outcome B :=
  match m with
  | Ok a => f a
  | Exit st t => Exit st t
  | Raise e => Raise e
  | Unmodelled => Unmodelled
  end.

Notation "x <- m ;; k" := (bind m (fun x => k))
  (at level 61, m at next level, right associativity).
Notation "' pat <- m ;; k" := (bind m (fun x => match x with pat => k end))
  (at level 61, pat pattern, m at next level, right associativity).

(** [ArgumentParser.error(message)] *)
Definition error {A : Type} (t : error_text) : outcome A := Exit 2 (Some t).

Definition is_ok {A : Type} (m : outcome A) : bool :=
  match m with Ok _ => true | _ => false end.

(** ** The argparse collaborator

    [CustomArgumentParser] extends [argparse.ArgumentParser] of the Python
    standard library (CPython 3.6 to 3.11).  This module models the part
    of it the wrapper drives: optional arguments that store one value
    (the default [action='store'], [nargs=None]), the help action, option
    registration under a conflict handler, and the parse loop.  The
    parser is one built with the default keyword arguments, but for
    [conflict_handler] and [add_help].  Left out, and reported as
    [Unmodelled]: positional declarations, abbreviated or clustered option
    tokens, the [--] separator, destinations that start with an underscore
    (the class [Namespace] has attributes of its own with such names), and,
    where the result depends on the characters of a string (conversion to
    [int] or [list], the test for a negative number), a string that is not
    plain text: printable ASCII characters, at most 4300 of them. *)
Module Argparse.

(** The [type=] callables in use: the run-time types of config leaves. *)
Inductive pytype : Type := TNone | TBool | TInt | TStr | TList | TDict.

(** [type(v)] *)
Definition type_of (v : pyval) : pytype :=
  match v with
  | VNone => TNone
  | VBool _ => TBool
  | VInt _ => TInt
  | VStr _ => TStr
  | VList _ => TList
  | VDict _ => TDict
  end.

(** [t.__name__] *)
Definition type_name (t : pytype) : string :=
  match t with
  | TNone => "NoneType"
  | TBool => "bool"
  | TInt => "int"
  | TStr => "str"
  | TList => "list"
  | TDict => "dict"
  end.

(** *** The constructors applied to a command-line token *)

(** Plain text: printable ASCII characters only, and no more of them than
    the digits [int] accepts in every version. *)
Definition printable (c : ascii) : bool :=
  let n := nat_of_ascii c in ((32 <=? n) && (n <=? 126))%nat.

Definition plain_text (s : string) : bool :=
  forallb printable (list_ascii_of_string s)
  && (String.length s <=? 4300)%nat.

(** The white space of plain text. *)
Definition is_space (c : ascii) : bool := Ascii.eqb c " ".

Definition digit_of (c : ascii) : option Z :=
  let n := Z.of_nat (nat_of_ascii c) in
  if ((48 <=? n) && (n <=? 57))%Z then Some (n - 48)%Z else None.

Fixpoint lstrip (s : string) : string :=
  match s with
  | String c r => if is_space c then lstrip r else s
  | EmptyString => EmptyString
  end.

Fixpoint rstrip (s : string) : string :=
  match s with
  | String c r =>
      let r' := rstrip r in
      if is_space c && String.eqb r' "" then "" else String c r'
  | EmptyString => EmptyString
  end.

Inductive digit_state : Type := AtStart | AfterDigit | AfterUnderscore.

(** Decimal digits, with single underscores allowed between two digits. *)
Fixpoint int_digits (s : string) (st : digit_state) (acc : Z) : option Z :=
  match s with
  | EmptyString => match st with AfterDigit => Some acc | _ => None end
  | String c r =>
      match digit_of c with
      | Some d => int_digits r AfterDigit (10 * acc + d)
      | None =>
          if Ascii.eqb c "_" then
            match st with
            | AfterDigit => int_digits r AfterUnderscore acc
            | _ => None
            end
          else None
      end
  end.

(** [int(s)] for plain text [s]; [None] is [ValueError]. *)
Definition py_int (s : string) : option Z :=
  match rstrip (lstrip s) with
  | String "+" r => int_digits r AtStart 0
  | String "-" r => option_map Z.opp (int_digits r AtStart 0)
  | t => int_digits t AtStart 0
  end.

(** [type_func(arg_string)] for [type_func = t], or the identity when no
    [type=] was given; [None] is a [TypeError] or [ValueError].  For [int]
    and [list] the string is plain text ([get_value] sees to it). *)
Definition apply_type (t : option pytype) (arg_string : string) : option pyval :=
  match t with
  | None => Some (VStr arg_string)
  | Some TStr => Some (VStr arg_string)
  | Some TInt => option_map VInt (py_int arg_string)
  | Some TBool => Some (VBool (negb (String.eqb arg_string "")))
  | Some TList =>
      Some (VList (map (fun c => VStr (String c "")) (list_ascii_of_string arg_string)))
  | Some TDict => if String.eqb arg_string "" then Some (VDict []) else None
  | Some TNone => None
  end.

(** *** Actions and the parser *)

Inductive action_kind : Type := Store | Help.

Record action : Type := mkAction {
  option_strings : list string;
  dest : string;
  default : pyval;
  type : option pytype;
  kind : action_kind
}.

Inductive handler : Type := HandlerError | HandlerResolve.

(** [_actions], in registration order; every action here is optional, so
    [_option_string_actions] is read off the actions' option strings. *)
Record parser : Type := mkParser {
  conflict_handler : handler;
  actions : list action;
  has_negative_number_optionals : bool
}.

Definition has_option (s : string) (a : action) : bool :=
  existsb (String.eqb s) (option_strings a).

(** [_option_string_actions.get(s)] *)
Definition find_option (s : string) (acts : list action) : option action :=
  find (has_option s) acts.

Definition registered (acts : list action) : list string :=
  flat_map option_strings acts.

(** [_get_action_name] *)
Definition action_name (a : action) : string := join "/" (option_strings a).

Definition starts_with_dash (s : string) : bool :=
  match s with
  | String c _ => Ascii.eqb c "-"
  | EmptyString => false
  end.

Definition is_long (s : string) : bool :=
  match s with
  | String c1 (String c2 _) => Ascii.eqb c1 "-" && Ascii.eqb c2 "-"
  | _ => false
  end.

(** [s.lstrip('-')] *)
Fixpoint lstrip_dash (s : string) : string :=
  match s with
  | String c r => if Ascii.eqb c "-" then lstrip_dash r else s
  | EmptyString => EmptyString
  end.

(** [s.replace('-', '_')] *)
Fixpoint replace_dash (s : string) : string :=
  match s with
  | String c r => String (if Ascii.eqb c "-" then "_"%char else c) (replace_dash r)
  | EmptyString => EmptyString
  end.

Fixpoint all_digits (s : string) : bool :=
  match s with
  | String c r =>
      match digit_of c with Some _ => all_digits r | None => false end
  | EmptyString => true
  end.

(** [s.split(c, 1)] when [c] occurs in [s] *)
Fixpoint split_once (c : ascii) (s : string) : option (string * string) :=
  match s with
  | EmptyString => None
  | String x r =>
      if Ascii.eqb x c then Some (EmptyString, r)
      else match split_once c r with
           | Some (a, b) => Some (String x a, b)
           | None => None
           end
  end.

Fixpoint contains (c : ascii) (s : string) : bool :=
  match s with
  | EmptyString => false
  | String x r => Ascii.eqb x c || contains c r
  end.

(** [_negative_number_matcher]: [^-\d+$|^-\d*\.\d+$] *)
Definition is_negative_number (s : string) : bool :=
  match s with
  | String "-" r =>
      (negb (String.eqb r "") && all_digits r)
      || match split_once "." r with
         | Some (a, b) => all_digits a && negb (String.eqb b "") && all_digits b
         | None => false
         end
  | _ => false
  end.

(** [_get_optional_kwargs]: the destination inferred from the option strings *)
Definition infer_dest (names : list string) : outcome string :=
  let dest_option_string :=
    match filter is_long names with
    | l :: _ => l
    | [] => hd "" names
    end in
  let d := lstrip_dash dest_option_string in
  if String.eqb d "" then Raise (ValueError (DestRequired (last names "")))
  else Ok (replace_dash d).

(** [_handle_conflict_resolve]: the conflicting option strings leave the
    actions that hold them; an action left without option strings is
    removed. *)
Definition resolve (conflicts : list string) (acts : list action) : list action :=
  flat_map
    (fun a =>
       if existsb (fun s => has_option s a) conflicts then
         match filter (fun s => negb (existsb (String.eqb s) conflicts))
                      (option_strings a) with
         | [] => []
         | remaining =>
             [mkAction remaining (dest a) (default a) (type a) (kind a)]
         end
       else [a])
    acts.

(** [_add_action], with [_check_conflict] *)
Definition add_action (p : parser) (a : action) : outcome parser :=
  let conflicts :=
    filter (fun s => match find_option s (actions p) with
                     | Some _ => true
                     | None => false
                     end)
           (option_strings a) in
  bind
    (match conflicts with
     | [] => Ok (actions p)
     | _ =>
         match conflict_handler p with
         | HandlerError =>
             Raise (ConflictError (action_name a)
                                  (ConflictingOptionStrings conflicts))
         | HandlerResolve => Ok (resolve conflicts (actions p))
         end
     end)
    (fun acts =>
       Ok (mkParser (conflict_handler p) (acts ++ [a])
             (has_negative_number_optionals p
              || existsb is_negative_number (option_strings a)))).

(** [add_argument(name, ..., default=default, type=type)] for option names *)
Definition add_argument (p : parser) (names : list string)
    (default : pyval) (type : option pytype) : outcome parser :=
  match names with
  | [] => Unmodelled
  | first :: others =>
      if negb (starts_with_dash first) && match others with [] => true | _ => false end
      then Unmodelled
      else if existsb (fun s => String.eqb s ""
                                || negb (is_long s) && negb (plain_text s)) names
      then Unmodelled
      else
        match find (fun s => negb (starts_with_dash s)) names with
        | Some s => Raise (ValueError (InvalidOptionString s))
        | None =>
            d <- infer_dest names ;;
            add_action p (mkAction names d default type Store)
        end
  end.

(** [ArgumentParser.__init__]: the help action is registered unless
    [add_help=False]. *)
Definition help_action : action :=
  mkAction ["-h"; "--help"] "help" VNone None Help.

Definition init (h : handler) (add_help : bool) : parser :=
  mkParser h (if add_help then [help_action] else []) false.

(** *** Parsing *)

Inductive token_class : Type :=
| Positional
| Flag (a : action) (option_string : string) (explicit_arg : option string)
| UnknownFlag
| NotModelled.

(** [_get_option_tuples] finds a registered option the token abbreviates,
    or a short option the token starts with. *)
Definition abbreviates (acts : list action) (tok : string) : bool :=
  if is_long tok then
    let option_prefix :=
      match split_once "=" tok with Some (o, _) => o | None => tok end in
    existsb (String.prefix option_prefix) (registered acts)
  else
    existsb (fun o => String.eqb o (substring 0 2 tok) || String.prefix tok o)
            (registered acts).

(** [_parse_optional], preceded by the test for the [--] separator *)
Definition classify (p : parser) (tok : string) : token_class :=
  if String.eqb tok "--" then NotModelled
  else if negb (starts_with_dash tok) then Positional
  else
    match find_option tok (actions p) with
    | Some a => Flag a tok None
    | None =>
        if Nat.eqb (String.length tok) 1 then Positional
        else
          match
            match split_once "=" tok with
            | Some (o, e) =>
                match find_option o (actions p) with
                | Some a => Some (a, o, e)
                | None => None
                end
            | None => None
            end
          with
          | Some (a, o, e) =>
              match kind a with
              | Store => Flag a o (Some e)
              | Help => if is_long o then Flag a o (Some e) else NotModelled
              end
          | None =>
              if abbreviates (actions p) tok then NotModelled
              else if negb (plain_text tok) then NotModelled
              else if is_negative_number tok
                      && negb (has_negative_number_optionals p)
              then Positional
              else if contains " " tok then Positional
              else UnknownFlag
          end
    end.

Definition not_modelled (p : parser) (tok : string) : bool :=
  match classify p tok with NotModelled => true | _ => false end.

(** The types whose result depends on the characters of the string. *)
Definition reads_characters (t : option pytype) : bool :=
  match t with
  | Some TInt | Some TList => true
  | _ => false
  end.

(** [_get_value] *)
Definition get_value (a : action) (arg_string : string) : outcome pyval :=
  if reads_characters (type a) && negb (plain_text arg_string) then Unmodelled
  else
    match apply_type (type a) arg_string with
    | Some v => Ok v
    | None =>
        error (ArgumentError (action_name a)
                 (InvalidValue
                    (match type a with Some t => type_name t | None => "None" end)
                    arg_string))
    end.

(** The loop of [_parse_known_args] over the argument strings: [ns] is the
    namespace, [seen] the option strings of the actions taken, [extras] the
    unrecognized strings. *)
Fixpoint consume (p : parser) (ns : dict) (seen extras : list string)
    (arg_strings : list string) : outcome (dict * list string * list string) :=
  match arg_strings with
  | [] => Ok (ns, seen, extras)
  | tok :: rest =>
      match classify p tok with
      | NotModelled => Unmodelled
      | Positional | UnknownFlag => consume p ns seen (extras ++ [tok]) rest
      | Flag a s explicit_arg =>
          match kind a with
          | Help =>
              match explicit_arg with
              | None => Exit 0 None
              | Some e =>
                  error (ArgumentError (action_name a) (IgnoredExplicitArgument e))
              end
          | Store =>
              match explicit_arg with
              | Some e =>
                  match get_value a e with
                  | Ok v => consume p (dict_set (dest a) v ns) (s :: seen) extras rest
                  | Exit st t => Exit st t
                  | Raise ex => Raise ex
                  | Unmodelled => Unmodelled
                  end
              | None =>
                  match rest with
                  | arg :: rest' =>
                      match classify p arg with
                      | Positional =>
                          match get_value a arg with
                          | Ok v =>
                              consume p (dict_set (dest a) v ns) (s :: seen)
                                      extras rest'
                          | Exit st t => Exit st t
                          | Raise ex => Raise ex
                          | Unmodelled => Unmodelled
                          end
                      | _ => error (ArgumentError (action_name a) ExpectedOneArgument)
                      end
                  | [] => error (ArgumentError (action_name a) ExpectedOneArgument)
                  end
              end
          end
      end
  end.

Definition starts_with_underscore (s : string) : bool :=
  match s with
  | String c _ => Ascii.eqb c "_"
  | EmptyString => false
  end.

(** [hasattr(namespace, name)].  A namespace has the attributes set on it
    and those of its class, [Namespace]: its methods and what it inherits
    from [object], all of which start with an underscore.  For a name that
    starts with an underscore the answer depends on the class and is left
    out ([None]). *)
Definition hasattr (ns : dict) (name : string) : option bool :=
  if starts_with_underscore name then None else Some (dict_mem name ns).

(** The defaults placed in a fresh namespace before the loop: the default
    of an action is set unless the namespace has the attribute already. *)
Definition initial_namespace (acts : list action) : outcome dict :=
  fold_left
    (fun acc a =>
       ns <- acc ;;
       match kind a with
       | Store =>
           match hasattr ns (dest a) with
           | Some true => Ok ns
           | Some false => Ok (dict_set (dest a) (default a) ns)
           | None => Unmodelled
           end
       | Help => Ok ns
       end)
    acts (Ok []).

(** After the loop, a string default that is still in the namespace is
    converted by the action's type (the identity test of the Python code
    is rendered as equality of the strings). *)
Definition convert_defaults (acts : list action) (seen : list string)
    (ns : dict) : outcome dict :=
  fold_left
    (fun acc a =>
       ns <- acc ;;
       match kind a, default a with
       | Store, VStr s =>
           if existsb (fun o => has_option o a) seen then Ok ns
           else
             match dict_get (dest a) ns with
             | Some (VStr s') =>
                 if String.eqb s s' then
                   v <- get_value a s ;; Ok (dict_set (dest a) v ns)
                 else Ok ns
             | _ => Ok ns
             end
       | _, _ => Ok ns
       end)
    acts (Ok ns).

(** [ArgumentParser.parse_known_args(args)] *)
Definition parse_known_args (p : parser) (args : list string)
    : outcome (dict * list string) :=
  if existsb (not_modelled p) args then Unmodelled
  else
    ns0 <- initial_namespace (actions p) ;;
    '(ns, seen, extras) <- consume p ns0 [] [] args ;;
    ns' <- convert_defaults (actions p) seen ns ;;
    Ok (ns', extras).

End Argparse.

(** ** CustomArgumentParser *)
Module CustomArgumentParser.
Import Argparse.

(** The keyword arguments of the constructor that the model reads. *)
Record kwargs : Type := mkKwargs {
  kw_conflict_handler : handler;
  kw_add_help : bool
}.

(** [__init__]: [kwargs['conflict_handler'] = 'resolve'], then the
    initializer of [ArgumentParser]. *)
Definition init (kw : kwargs) : parser :=
  let kw' := mkKwargs HandlerResolve (kw_add_help kw) in
  Argparse.init (kw_conflict_handler kw') (kw_add_help kw').

(** A config key that [add_argument] can derive a destination from. *)
Definition registrable (k : string) : bool :=
  negb (String.eqb (lstrip_dash k) "").

(** The action that [add_argument('--' + k, default=v, type=type(v))]
    creates. *)
Definition config_action (k : string) (v : pyval) : action :=
  mkAction [("--" ++ k)%string] (replace_dash (lstrip_dash k)) v
           (Some (type_of v)) Store.

(** The registered actions after the conflicts of the option strings
    [--k], for the keys [ks] in turn, have been resolved. *)
Definition resolve_all (ks : list string) (acts : list action) : list action :=
  fold_left (fun acc k => resolve [("--" ++ k)%string] acc) ks acts.

(** The actions the registration loop creates, in the order of the flat
    config. *)
Definition config_actions (flat : list (string * pyval)) : list action :=
  map (fun kv => config_action (fst kv) (snd kv)) flat.

(** The parser holds a store action whose destination is [k]. *)
Definition declares (p : parser) (k : string) : Prop :=
  exists a, In a (actions p) /\ kind a = Store /\ dest a = k.

Section Orchestrator.

(** Executing the module found at [args.configfile] and reading its
    [config] attribute; [None] stands for any failure to do so. *)
Variable load_config : pyval -> option dict.

(** [for k, v in flat_config: self.add_argument('--' + k, default=v, type=type(v))] *)
Definition register_config (self : parser)
    (flat_config : list (string * pyval)) : outcome parser :=
  fold_left
    (fun acc kv =>
       self <- acc ;;
       add_argument self [("--" ++ fst kv)%string] (snd kv)
                    (Some (type_of (snd kv))))
    flat_config (Ok self).

(** The loop under [# Ensure override priority]; [argv] is [sys.argv]. *)
Definition ensure_override_priority (args_dict config_dict : dict)
    (argv : list string) : dict :=
  fold_left
    (fun args_dict key =>
       match dict_get key config_dict with
       | Some v =>
           if negb (existsb (String.eqb key) argv)
           then dict_set key v args_dict
           else args_dict
       | None => args_dict
       end)
    (keys args_dict) args_dict.

(** [parse_known_args]: the parser [self] is updated by the registrations
    and returned with the result; [argv] is [sys.argv], whose tail the
    inherited method parses. *)
Definition parse_known_args (self : parser) (argv : list string)
    : outcome (parser * (dict * list string)) :=
  '(args, unknown) <- Argparse.parse_known_args self (tl argv) ;;
  configfile <- match dict_get "configfile" args with
                | Some v => Ok v
                | None => Raise (AttributeError "configfile")
                end ;;
  config <- match load_config configfile with
            | Some c => Ok c
            | None => Raise ConfigLoadError
            end ;;
  let flat_config := flatten_keys config in
  self' <- register_config self flat_config ;;
  '(args, unknown) <- Argparse.parse_known_args self' (tl argv) ;;
  let config_dict := dict_of_pairs flat_config in
  Ok (self', (ensure_override_priority args config_dict argv, unknown)).

(** [parse_args] *)
Definition parse_args (self : parser) (argv : list string)
    : outcome (parser * dict) :=
  '(self', (args, unknown)) <- parse_known_args self argv ;;
  match unknown with
  | [] => Ok (self', args)
  | _ =>
      let msg := "unrecognized arguments: " in
      error (Message (msg ++ join " " unknown)%string)
  end.

End Orchestrator.

End CustomArgumentParser.

(** ** The driver under [if __name__ == '__main__'] *)

(** The parser the test code builds: [-c/--configfile], [-d/--datafile]
    and [-m/--modelfile] on a fresh [CustomArgumentParser]. *)
Definition driver_parser : outcome Argparse.parser :=
  p <- Argparse.add_argument
         (CustomArgumentParser.init
            (CustomArgumentParser.mkKwargs Argparse.HandlerError true))
         ["-c"; "--configfile"] VNone None ;;
  p <- Argparse.add_argument p ["-d"; "--datafile"] VNone None ;;
  Argparse.add_argument p ["-m"; "--modelfile"] VNone None.

Definition driver : Argparse.parser :=
  Eval cbv in
    match driver_parser with
    | Ok p => p
    | _ => CustomArgumentParser.init
             (CustomArgumentParser.mkKwargs Argparse.HandlerError true)
    end.

(** A file system holding one configuration module, [config.py]. *)
Definition one_config (config : dict) (path : pyval) : option dict :=
  match path with
  | VStr "config.py" => Some config
  | _ => None
  end.

(** Running [parse_known_args] / [parse_args] of the driver's parser. *)
Definition run_known (config : dict) (argv : list string)
    : outcome (dict * list string) :=
  p <- driver_parser ;;
  r <- CustomArgumentParser.parse_known_args (one_config config) p argv ;;
  Ok (snd r).

Definition run_args (config : dict) (argv : list string) : outcome dict :=
  p <- driver_parser ;;
  r <- CustomArgumentParser.parse_args (one_config config) p argv ;;
  Ok (snd r).

(** The configurations of the specification's scenarios. *)
Definition priority_config : dict :=
  [("a", VInt 4); ("b", VDict [("x", VInt 1)])].

Definition count_config : dict := [("count", VInt 10)].

Definition flag_config : dict := [("flag", VBool true)].

Definition datafile_config : dict := [("datafile", VStr "d.txt")].


Definition name_config : dict := [("name", VStr "s1")].

(** The command lines ([sys.argv]) of the scenarios. *)
Definition priority_argv : list string :=
  ["prog"; "-c"; "config.py"; "--a"; "3"].

Definition count_argv : list string :=
  ["prog"; "-c"; "config.py"; "--count"; "abc"].

Definition flag_argv : list string :=
  ["prog"; "-c"; "config.py"; "--flag"; "False"].

Definition unknown_argv : list string :=
  ["prog"; "-c"; "config.py"; "--unknown_flag"; "5"].

(** Small mappings used as examples: a single-level mapping with a list
    value, a flat mapping with conflicting dotted keys, and the two sides
    of a merge. *)
Definition flat_example : dict :=
  [("x", VInt 1); ("y", VList [VDict [("z", VNone)]])].

Definition dotted_example : dict :=
  [("a.b", VInt 1); ("a", VStr "s"); ("a.c", VInt 2)].

Definition merge_left : dict :=
  [("a", VDict [("b", VInt 1)]); ("x", VInt 0)].

Definition merge_right : dict :=
  [("a", VDict [("c", VInt 2)]); ("x", VInt 5)].

(** The configuration of the docstring of [parse_known_args]. *)
Definition docstring_config : dict :=
  [("arg1", VInt 4);
   ("arg2", VDict [("obj1", VList [VInt 3; VInt 4]); ("obj2", VStr "foo")])].

(** ** The spec's reading of the transforms

    These definitions follow the wording of the specification rather than
    the code; the theorems below compare the code with them. *)

(** The value reached from [v] along a path of keys. *)
Fixpoint lookup_path (v : pyval) (p : list string) : option pyval :=
  match p with
  | [] => Some v
  | k :: p' =>
      match v with
      | VDict d =>
          match dict_get k d with
          | Some x => lookup_path x p'
          | None => None
          end
      | _ => None
      end
  end.

(** Depth-first enumeration of the leaves of a nested mapping, each with
    the path of keys from the root: keys in iteration order, a nested
    mapping entered before the next sibling, every value that is not a
    mapping a leaf. *)
Fixpoint dfs_leaves (v : pyval) : list (list string * pyval) :=
  match v with
  | VDict d =>
      flat_map
        (fun kv : string * pyval =>
           match snd kv with
           | VDict _ =>
               map (fun pl : list string * pyval => (fst kv :: fst pl, snd pl))
                   (dfs_leaves (snd kv))
           | x => [([fst kv], x)]
           end)
        d
  | _ => []
  end.

(** What one entry of a mapping contributes to its flat entry list. *)
Definition add_prefix (key : string) (kv' : string * pyval) : string * pyval :=
  ((key ++ "." ++ fst kv')%string, snd kv').

Definition flatten_entry (kv : string * pyval) : list (string * pyval) :=
  match snd kv with
  | VDict d => map (add_prefix (fst kv)) (flatten_keys d)
  | x => [(fst kv, x)]
  end.

(** The flat entry list of the specification: dot-joined paths. *)
Definition dfs_pairs (d : dict) : list (string * pyval) :=
  map (fun pl : list string * pyval => (join "." (fst pl), snd pl))
      (dfs_leaves (VDict d)).

(** A single-level mapping: no value is a mapping. *)
Definition single_level (d : dict) : bool :=
  forallb (fun kv : string * pyval => negb (is_dict (snd kv))) d.

(** The chain of single-key mappings along a path, ending at the leaf. *)
Fixpoint chain (p : list string) (v : pyval) : dict :=
  match p with
  | [] => []
  | [k] => [(k, v)]
  | k :: p' => [(k, VDict (chain p' v))]
  end.

(** One iteration of the loop of [merge_dicts], and the state of the loop
    of [expand_dict] started from an accumulated result [c]. *)
Definition merge_entry (d1 : dict) (kv : string * pyval) : dict :=
  let key := fst kv in
  match dict_get key d1 with
  | Some x1 =>
      match x1, snd kv with
      | VDict s1, VDict _ => dict_set key (VDict (merge_into (snd kv) s1)) d1
      | _, _ => dict_set key (snd kv) d1
      end
  | None => dict_set key (snd kv) d1
  end.

Definition expand_from (c : dict) (b : list (string * pyval)) : dict :=
  fold_left (fun c kv => merge_dicts c (build_child (fst kv) (snd kv))) b c.

(** The binding of a key after a deep merge, from its bindings on the two
    sides: two mappings are merged, otherwise the later side wins. *)
Definition merged_binding (b1 b2 : option pyval) : option pyval :=
  match b1, b2 with
  | Some (VDict s1), Some (VDict s2) => Some (VDict (merge_dicts s1 s2))
  | _, Some v2 => Some v2
  | _, None => b1
  end.

(** No key of the mapping, at any depth, contains the delimiter. *)
Fixpoint nodots_val (v : pyval) : bool :=
  match v with
  | VDict d =>
      forallb (fun kv : string * pyval =>
                 negb (has_dot (fst kv)) && nodots_val (snd kv)) d
  | _ => true
  end.

Definition nodots (d : dict) : bool := nodots_val (VDict d).

(** A nested mapping without the sub-mappings that hold no leaf. *)
Fixpoint prune_val (v : pyval) : pyval :=
  match v with
  | VDict d =>
      VDict
        (flat_map
           (fun kv : string * pyval =>
              match snd kv with
              | VDict _ =>
                  match prune_val (snd kv) with
                  | VDict [] => []
                  | x => [(fst kv, x)]
                  end
              | x => [(fst kv, x)]
              end)
           d)
  | x => x
  end.

Definition prune (d : dict) : dict :=
  match prune_val (VDict d) with VDict d' => d' | _ => [] end.

(** Every nested mapping inside [v] holds at least one leaf. *)
Fixpoint leafy_val (v : pyval) : bool :=
  match v with
  | VDict d =>
      forallb
        (fun kv : string * pyval =>
           match snd kv with
           | VDict _ =>
               match flatten_val (snd kv) with
               | [] => false
               | _ :: _ => leafy_val (snd kv)
               end
           | _ => true
           end)
        d
  | _ => true
  end.

Definition leafy (d : dict) : bool := leafy_val (VDict d).

(** Two paths part ways: at some position they hold different keys, so
    neither is a prefix of the other. *)
Fixpoint diverge (p q : list string) : bool :=
  match p, q with
  | k :: p', k' :: q' => if String.eqb k k' then diverge p' q' else true
  | _, _ => false
  end.

(** The keys of [d1] followed by the keys of [d2] that [d1] lacks. *)
Definition merged_keys (d1 d2 : dict) : list string :=
  keys d1 ++ filter (fun k => negb (dict_mem k d1)) (keys d2).


(** A flat mapping none of whose values is a mapping. *)
Definition leaf_valued (b : list (string * pyval)) : bool :=
  forallb (fun kv : string * pyval => negb (is_dict (snd kv))) b.

(** A path of the specification: at least one segment, and no segment
    holds the delimiter. *)
Definition is_path (p : list string) : bool :=
  match p with
  | [] => false
  | _ :: _ => forallb (fun s => negb (has_dot s)) p
  end.

(** The flat entry of a leaf given by its path: the segments joined by
    the delimiter, and the value. *)
Definition flat_entry (pl : list string * pyval) : string * pyval :=
  (join "." (fst pl), snd pl).

(** * Properties *)

(** ** Induction on nested mappings *)

Section DictInduction.

Variable P : dict -> Prop.
Hypothesis P_empty : P [].
Hypothesis P_leaf :
  forall k v r, is_dict v = false -> P r -> P ((k, v) :: r).
Hypothesis P_nested :
  forall k d r, P d -> P r -> P ((k, VDict d) :: r).

Lemma dict_nested_ind : forall d, P d.
Proof.
  intro d0.
  cut (forall v, match v with VDict d => P d | _ => True end).
  { intro H. exact (H (VDict d0)). }
  clear d0. fix IH 1. intros [ | b | z | s | l | d]; try exact I.
  induction d as [|[k x] r IHr].
  - exact P_empty.
  - pose proof (IH x) as Hx. destruct x; try (apply P_leaf; [reflexivity | exact IHr]).
    apply P_nested; assumption.
Qed.

End DictInduction.

(** ** Strings and dictionaries *)

Lemma dict_get_set_same (k : string) (v : pyval) (d : dict) :
  dict_get k (dict_set k v d) = Some v.
Proof.
  induction d as [|[k' x] r IH]; simpl.
  - now rewrite String.eqb_refl.
  - destruct (String.eqb k k') eqn:E; simpl; rewrite E; auto.
Qed.

Lemma dict_get_set_other (k k' : string) (v : pyval) (d : dict) :
  k <> k' -> dict_get k' (dict_set k v d) = dict_get k' d.
Proof.
  intro Hne. induction d as [|[k0 x] r IH]; simpl.
  - apply String.eqb_neq in Hne. rewrite String.eqb_sym in Hne. now rewrite Hne.
  - destruct (String.eqb k k0) eqn:E; simpl.
    + apply String.eqb_eq in E. subst k0.
      destruct (String.eqb k' k) eqn:E'; auto.
      apply String.eqb_eq in E'. congruence.
    + now rewrite IH.
Qed.

Lemma dict_set_absent (k : string) (v : pyval) (d : dict) :
  dict_get k d = None -> dict_set k v d = d ++ [(k, v)].
Proof.
  induction d as [|[k0 x] r IH]; simpl; auto.
  destruct (String.eqb k k0); [discriminate|]. intro H. now rewrite IH.
Qed.

Lemma dict_get_absent_iff (k : string) (d : dict) :
  dict_get k d = None <-> ~ In k (keys d).
Proof.
  induction d as [|[k0 x] r IH]; simpl.
  - tauto.
  - destruct (String.eqb k k0) eqn:E.
    + apply String.eqb_eq in E. split; [discriminate | intro H; exfalso; auto].
    + apply String.eqb_neq in E. rewrite IH. intuition congruence.
Qed.

Lemma dict_set_middle (k : string) (v x : pyval) (d1 d2 : dict) :
  ~ In k (keys d1) ->
  dict_set k v (d1 ++ (k, x) :: d2) = d1 ++ (k, v) :: d2.
Proof.
  induction d1 as [|[k0 y] r IH]; simpl; intro H.
  - now rewrite String.eqb_refl.
  - destruct (String.eqb k k0) eqn:E.
    + apply String.eqb_eq in E. exfalso; auto.
    + rewrite IH; auto.
Qed.

Lemma dict_get_middle (k : string) (x : pyval) (d1 d2 : dict) :
  ~ In k (keys d1) -> dict_get k (d1 ++ (k, x) :: d2) = Some x.
Proof.
  induction d1 as [|[k0 y] r IH]; simpl; intro H.
  - now rewrite String.eqb_refl.
  - destruct (String.eqb k k0) eqn:E.
    + apply String.eqb_eq in E. exfalso; auto.
    + apply IH; auto.
Qed.

Lemma nodupb_NoDup (l : list string) : nodupb l = true <-> NoDup l.
Proof.
  induction l as [|x r IH]; simpl.
  - split; [constructor | reflexivity].
  - rewrite andb_true_iff, negb_true_iff, IH. split.
    + intros [Hx Hr]. constructor; auto. intro Hin.
      assert (existsb (String.eqb x) r = true) as C.
      { apply existsb_exists. exists x. split; auto. apply String.eqb_refl. }
      congruence.
    + intro H. inversion H; subst. split; auto.
      destruct (existsb (String.eqb x) r) eqn:E; auto.
      apply existsb_exists in E. destruct E as [y [Hy E]].
      apply String.eqb_eq in E. subst. contradiction.
Qed.

Lemma split_dot_nodot (s : string) : has_dot s = false -> split_dot s = [s].
Proof.
  induction s as [|c r IH]; simpl; auto.
  intro H. apply orb_false_iff in H. destruct H as [Hc Hr].
  rewrite Hc, (IH Hr). reflexivity.
Qed.

Lemma split_dot_prefix (k r : string) :
  has_dot k = false ->
  split_dot (k ++ "." ++ r)%string = k :: split_dot r.
Proof.
  induction k as [|c k' IH]; simpl in *; auto.
  intro H. apply orb_false_iff in H. destruct H as [Hc Hk].
  rewrite Hc, (IH Hk). reflexivity.
Qed.

Lemma join_cons (sep k : string) (p : list string) :
  p <> [] -> join sep (k :: p) = (k ++ sep ++ join sep p)%string.
Proof. destruct p; [congruence | reflexivity]. Qed.

(** ** flatten_keys *)

Lemma flatten_val_fold (d : dict) (acc : list (string * pyval)) :
  fold_left
    (fun lst (kv : string * pyval) =>
       let key := fst kv in
       match snd kv with
       | VDict _ =>
           lst ++ map (fun kv' : string * pyval =>
                         ((key ++ "." ++ fst kv')%string, snd kv'))
                      (flatten_val (snd kv))
       | x => lst ++ [(key, x)]
       end)
    d acc
  = acc ++ flat_map flatten_entry d.
Proof.
  revert acc. induction d as [|[k x] r IH]; intro acc; simpl.
  - now rewrite app_nil_r.
  - destruct x; rewrite IH, <- app_assoc; reflexivity.
Qed.

Lemma flatten_keys_concat (d : dict) :
  flatten_keys d = flat_map flatten_entry d.
Proof. unfold flatten_keys. simpl. now rewrite flatten_val_fold. Qed.

Lemma flatten_keys_cons (kv : string * pyval) (r : dict) :
  flatten_keys (kv :: r) = flatten_entry kv ++ flatten_keys r.
Proof. now rewrite !flatten_keys_concat. Qed.

Lemma flatten_keys_app (d1 d2 : dict) :
  flatten_keys (d1 ++ d2) = flatten_keys d1 ++ flatten_keys d2.
Proof. rewrite !flatten_keys_concat. apply flat_map_app. Qed.

Lemma dfs_leaves_cons (kv : string * pyval) (r : dict) :
  dfs_leaves (VDict (kv :: r)) =
  match snd kv with
  | VDict _ =>
      map (fun pl : list string * pyval => (fst kv :: fst pl, snd pl))
          (dfs_leaves (snd kv))
  | x => [([fst kv], x)]
  end ++ dfs_leaves (VDict r).
Proof. reflexivity. Qed.

Lemma dfs_leaves_path_nonempty (d : dict) :
  forall pl, In pl (dfs_leaves (VDict d)) -> fst pl <> [].
Proof.
  induction d as [|[k x] r IH]; intros pl Hin.
  - destruct Hin.
  - rewrite dfs_leaves_cons in Hin. apply in_app_or in Hin.
    destruct Hin as [Hin | Hin]; [|auto].
    simpl in Hin. destruct x; simpl in Hin;
      try (destruct Hin as [<- | []]; discriminate).
    apply in_map_iff in Hin. destruct Hin as [pl' [<- _]]. discriminate.
Qed.

Lemma flatten_keys_dfs (d : dict) : flatten_keys d = dfs_pairs d.
Proof.
  induction d as [| k v r Hv IHr | k d r IHd IHr] using dict_nested_ind.
  - reflexivity.
  - rewrite flatten_keys_cons, IHr. unfold dfs_pairs.
    rewrite dfs_leaves_cons, map_app. f_equal.
    unfold flatten_entry. destruct v; try reflexivity. discriminate.
  - rewrite flatten_keys_cons, IHr. unfold dfs_pairs at 2.
    rewrite dfs_leaves_cons, map_app. f_equal.
    unfold flatten_entry. cbn [fst snd]. rewrite IHd. unfold dfs_pairs.
    rewrite !map_map. apply map_ext_in. intros pl Hin.
    unfold add_prefix. cbn [fst snd].
    rewrite join_cons; [reflexivity | now apply (dfs_leaves_path_nonempty d)].
Qed.

Lemma flatten_keys_single_level (d : dict) :
  single_level d = true -> flatten_keys d = d.
Proof.
  induction d as [|[k x] r IH]; intro H.
  - reflexivity.
  - simpl in H. apply andb_true_iff in H. destruct H as [Hx Hr].
    rewrite flatten_keys_cons, (IH Hr). unfold flatten_entry.
    destruct x; try reflexivity. discriminate.
Qed.

(** ** merge_dicts and expand_dict *)

Lemma merge_dicts_fold (d1 d2 : dict) :
  merge_dicts d1 d2 = fold_left merge_entry d2 d1.
Proof. reflexivity. Qed.

Lemma merge_dicts_cons (d1 : dict) (kv : string * pyval) (r : dict) :
  merge_dicts d1 (kv :: r) = merge_dicts (merge_entry d1 kv) r.
Proof. reflexivity. Qed.

Lemma merge_dicts_single (d1 : dict) (kv : string * pyval) :
  merge_dicts d1 [kv] = merge_entry d1 kv.
Proof. reflexivity. Qed.

Lemma merge_entry_absent (d1 : dict) (k : string) (x : pyval) :
  dict_get k d1 = None -> merge_entry d1 (k, x) = d1 ++ [(k, x)].
Proof.
  intro H. unfold merge_entry. cbn [fst snd]. rewrite H.
  now apply dict_set_absent.
Qed.

Lemma merge_entry_nested (a1 a2 s c : dict) (k : string) :
  ~ In k (keys a1) ->
  merge_entry (a1 ++ (k, VDict s) :: a2) (k, VDict c)
  = a1 ++ (k, VDict (merge_dicts s c)) :: a2.
Proof.
  intro H. unfold merge_entry. cbn [fst snd].
  rewrite dict_get_middle by assumption.
  now rewrite dict_set_middle.
Qed.

Lemma expand_dict_from (b : dict) : expand_dict b = expand_from [] b.
Proof. reflexivity. Qed.

Lemma expand_from_cons (c : dict) (kv : string * pyval) (b : list (string * pyval)) :
  expand_from c (kv :: b)
  = expand_from (merge_dicts c (build_child (fst kv) (snd kv))) b.
Proof. reflexivity. Qed.

Lemma expand_from_app (c : dict) (b1 b2 : list (string * pyval)) :
  expand_from c (b1 ++ b2) = expand_from (expand_from c b1) b2.
Proof. unfold expand_from. apply fold_left_app. Qed.

Lemma split_dot_nonempty (s : string) : split_dot s <> [].
Proof.
  destruct s as [|c r]; simpl; [discriminate|].
  destruct (Ascii.eqb c dot); [discriminate|].
  destruct (split_dot r); discriminate.
Qed.

Lemma wrap_fold (q : list string) (c : dict) :
  fold_left (fun child i => [(i, VDict child)]) (rev q) c
  = fold_right (fun i child => [(i, VDict child)]) c q.
Proof.
  induction q as [|k q IH]; simpl; auto.
  now rewrite fold_left_app, IH.
Qed.

Lemma chain_snoc (q : list string) (last : string) (v : pyval) :
  chain (q ++ [last]) v
  = fold_right (fun i child => [(i, VDict child)]) [(last, v)] q.
Proof.
  induction q as [|k q IH]; simpl; auto.
  rewrite <- IH. destruct (q ++ [last]) eqn:E; auto.
  destruct q; discriminate.
Qed.

Lemma build_child_chain (key : string) (v : pyval) :
  build_child key v = chain (split_dot key) v.
Proof.
  unfold build_child.
  destruct (rev (split_dot key)) as [|last q] eqn:E.
  - exfalso. apply (split_dot_nonempty key).
    rewrite <- (rev_involutive (split_dot key)), E. reflexivity.
  - assert (split_dot key = rev q ++ [last]) as ->.
    { rewrite <- (rev_involutive (split_dot key)), E. reflexivity. }
    rewrite chain_snoc, <- wrap_fold, rev_involutive. reflexivity.
Qed.

Lemma chain_cons (k : string) (p : list string) (v : pyval) :
  p <> [] -> chain (k :: p) v = [(k, VDict (chain p v))].
Proof. destruct p; [congruence | reflexivity]. Qed.

Lemma build_child_nodot (k : string) (v : pyval) :
  has_dot k = false -> build_child k v = [(k, v)].
Proof. intro H. now rewrite build_child_chain, split_dot_nodot. Qed.

Lemma build_child_prefix (k key : string) (v : pyval) :
  has_dot k = false ->
  build_child (k ++ "." ++ key)%string v = [(k, VDict (build_child key v))].
Proof.
  intro H. rewrite !build_child_chain, split_dot_prefix by assumption.
  apply chain_cons, split_dot_nonempty.
Qed.

Lemma expand_from_nodots (b : dict) :
  forall c,
    forallb (fun k => negb (has_dot k)) (keys b) = true ->
    NoDup (keys c ++ keys b) ->
    expand_from c b = c ++ b.
Proof.
  induction b as [|[k v] r IH]; intros c Hdots Hnd.
  - simpl. now rewrite app_nil_r.
  - simpl in Hdots. apply andb_true_iff in Hdots. destruct Hdots as [Hk Hr].
    apply negb_true_iff in Hk.
    rewrite expand_from_cons. cbn [fst snd].
    rewrite build_child_nodot, merge_dicts_single by assumption.
    assert (~ In k (keys c)) as Hkc.
    { intro Hin. simpl in Hnd. apply NoDup_remove_2 in Hnd.
      apply Hnd, in_or_app. now left. }
    rewrite merge_entry_absent by now apply dict_get_absent_iff.
    rewrite IH; auto.
    + now rewrite <- app_assoc.
    + unfold keys in *. rewrite map_app. simpl in *.
      now rewrite <- app_assoc.
Qed.

(** ** The round trip *)

Lemma expand_from_prefixed (k : string) (l : list (string * pyval)) :
  has_dot k = false ->
  forall a1 a2 s,
    ~ In k (keys a1) ->
    expand_from (a1 ++ (k, VDict s) :: a2) (map (add_prefix k) l)
    = a1 ++ (k, VDict (expand_from s l)) :: a2.
Proof.
  intro Hk. induction l as [|[key v] l IH]; intros a1 a2 s Hin.
  - reflexivity.
  - simpl map. rewrite !expand_from_cons. unfold add_prefix at 1 2.
    cbn [fst snd].
    rewrite build_child_prefix, merge_dicts_single by assumption.
    rewrite merge_entry_nested by assumption.
    now apply IH.
Qed.

Lemma merge_dicts_empty_child (key : string) (v : pyval) :
  merge_dicts [] (build_child key v) = build_child key v.
Proof.
  rewrite build_child_chain.
  destruct (split_dot key) as [|k p] eqn:E.
  - now apply split_dot_nonempty in E.
  - destruct p; reflexivity.
Qed.

Lemma expand_from_prefixed_new (k : string) (e : string * pyval)
    (l : list (string * pyval)) (c : dict) :
  has_dot k = false ->
  ~ In k (keys c) ->
  expand_from c (map (add_prefix k) (e :: l))
  = c ++ [(k, VDict (expand_from [] (e :: l)))].
Proof.
  intros Hk Hin. simpl map. rewrite !expand_from_cons.
  unfold add_prefix at 1 2. cbn [fst snd].
  rewrite build_child_prefix, merge_dicts_single by assumption.
  rewrite merge_entry_absent by now apply dict_get_absent_iff.
  rewrite expand_from_prefixed by assumption.
  now rewrite merge_dicts_empty_child.
Qed.

Lemma prune_cons (k : string) (x : pyval) (r : dict) :
  prune ((k, x) :: r)
  = match x with
    | VDict d => match prune d with [] => [] | d' => [(k, VDict d')] end
    | _ => [(k, x)]
    end ++ prune r.
Proof.
  unfold prune. cbn [prune_val flat_map fst snd].
  destruct x; reflexivity.
Qed.

Lemma prune_leaf (k : string) (v : pyval) (r : dict) :
  is_dict v = false -> prune ((k, v) :: r) = (k, v) :: prune r.
Proof. intro H. rewrite prune_cons. destruct v; try reflexivity. discriminate. Qed.

Lemma flatten_keys_leaf (k : string) (v : pyval) (r : dict) :
  is_dict v = false -> flatten_keys ((k, v) :: r) = (k, v) :: flatten_keys r.
Proof.
  intro H. rewrite flatten_keys_cons. unfold flatten_entry.
  destruct v; try reflexivity. discriminate.
Qed.

Lemma flatten_keys_nested (k : string) (d r : dict) :
  flatten_keys ((k, VDict d) :: r)
  = map (add_prefix k) (flatten_keys d) ++ flatten_keys r.
Proof. now rewrite flatten_keys_cons. Qed.

Lemma prune_empty_flatten (d : dict) : prune d = [] -> flatten_keys d = [].
Proof.
  induction d as [| k v r Hv IHr | k d r IHd IHr] using dict_nested_ind;
    intro H.
  - reflexivity.
  - rewrite prune_cons in H. destruct v; discriminate.
  - rewrite prune_cons in H. apply app_eq_nil in H. destruct H as [H1 H2].
    rewrite flatten_keys_cons, (IHr H2). unfold flatten_entry. cbn [fst snd].
    destruct (prune d); [|discriminate]. now rewrite IHd.
Qed.

Lemma wf_dict_cons (k : string) (x : pyval) (r : dict) :
  wf_dict ((k, x) :: r) = true ->
  ~ In k (keys r) /\ wf_val x = true /\ wf_dict r = true.
Proof.
  unfold wf_dict. cbn [wf_val map forallb fst snd nodupb].
  rewrite !andb_true_iff, negb_true_iff.
  intros [[Hk Hnd] [Hx Hr]]. repeat split; auto.
  intro Hin.
  assert (existsb (String.eqb k) (map fst r) = true) as C.
  { apply existsb_exists. exists k. split; auto. apply String.eqb_refl. }
  congruence.
Qed.

Lemma nodots_cons (k : string) (x : pyval) (r : dict) :
  nodots ((k, x) :: r) = true ->
  has_dot k = false /\ nodots_val x = true /\ nodots r = true.
Proof.
  unfold nodots. cbn [nodots_val forallb fst snd].
  rewrite !andb_true_iff, negb_true_iff. tauto.
Qed.

Lemma expand_from_flatten (m : dict) :
  wf_dict m = true ->
  nodots m = true ->
  forall c,
    (forall k, In k (keys m) -> ~ In k (keys c)) ->
    expand_from c (flatten_keys m) = c ++ prune m.
Proof.
  induction m as [| k v r Hv IHr | k d r IHd IHr] using dict_nested_ind;
    intros Hwf Hnd c Hc.
  - simpl. now rewrite app_nil_r.
  - apply wf_dict_cons in Hwf. destruct Hwf as [Hkr [_ Hwr]].
    apply nodots_cons in Hnd. destruct Hnd as [Hk [_ Hnr]].
    assert (~ In k (keys c)) as Hkc by (apply Hc; now left).
    rewrite flatten_keys_leaf, prune_leaf by assumption.
    rewrite expand_from_cons. cbn [fst snd].
    rewrite build_child_nodot, merge_dicts_single by assumption.
    rewrite merge_entry_absent by now apply dict_get_absent_iff.
    rewrite IHr; auto.
    + now rewrite <- app_assoc.
    + intros k' Hk' Hin. unfold keys in Hin. rewrite map_app in Hin.
      apply in_app_or in Hin. destruct Hin as [Hin | [<- | []]].
      * apply (Hc k'); [now right | assumption].
      * contradiction.
  - apply wf_dict_cons in Hwf. destruct Hwf as [Hkr [Hwd Hwr]].
    apply nodots_cons in Hnd. destruct Hnd as [Hk [Hnd Hnr]].
    assert (~ In k (keys c)) as Hkc by (apply Hc; now left).
    rewrite flatten_keys_cons, prune_cons, expand_from_app.
    unfold flatten_entry. cbn [fst snd].
    specialize (IHd Hwd Hnd [] (fun _ _ H => H)). simpl in IHd.
    destruct (flatten_keys d) as [|e l] eqn:Efl.
    + simpl in IHd. rewrite <- IHd. simpl.
      apply IHr; auto. intros k' Hk'. apply Hc. now right.
    + rewrite expand_from_prefixed_new by assumption.
      rewrite IHd.
      destruct (prune d) as [|e' l'] eqn:Epr.
      { apply prune_empty_flatten in Epr. congruence. }
      rewrite IHr; auto.
      * now rewrite <- app_assoc.
      * intros k' Hk' Hin. unfold keys in Hin. rewrite map_app in Hin.
        apply in_app_or in Hin. destruct Hin as [Hin | [<- | []]].
        -- apply (Hc k'); [now right | assumption].
        -- contradiction.
Qed.

Lemma append_injective (k a b : string) :
  (k ++ a)%string = (k ++ b)%string -> a = b.
Proof. induction k as [|c k IH]; simpl; intro H; [assumption | inversion H; auto]. Qed.

Lemma NoDup_map_injective {A B : Type} (f : A -> B) (l : list A) :
  (forall a b, f a = f b -> a = b) -> NoDup l -> NoDup (map f l).
Proof.
  intros Hf Hl. induction Hl as [|x l Hx Hl IH]; simpl; constructor; auto.
  intro Hin. apply in_map_iff in Hin. destruct Hin as [y [E Hy]].
  apply Hf in E. subst. contradiction.
Qed.

Lemma flatten_keys_head (m : dict) :
  nodots m = true ->
  forall kv, In kv (flatten_keys m) ->
             In (hd "" (split_dot (fst kv))) (keys m).
Proof.
  induction m as [|[k x] r IH]; intros Hnd kv Hin.
  - destruct Hin.
  - apply nodots_cons in Hnd. destruct Hnd as [Hk [_ Hnr]].
    rewrite flatten_keys_cons in Hin. apply in_app_or in Hin.
    destruct Hin as [Hin | Hin]; [left | right; now apply IH].
    unfold flatten_entry in Hin. cbn [fst snd] in *.
    destruct x;
      try (destruct Hin as [<- | []]; cbn [fst];
           now rewrite split_dot_nodot).
    apply in_map_iff in Hin. destruct Hin as [kv' [<- _]].
    unfold add_prefix. cbn [fst]. now rewrite split_dot_prefix.
Qed.

Lemma flatten_keys_NoDup (m : dict) :
  wf_dict m = true -> nodots m = true -> NoDup (keys (flatten_keys m)).
Proof.
  induction m as [| k v r Hv IHr | k d r IHd IHr] using dict_nested_ind;
    intros Hwf Hnd.
  - constructor.
  - pose proof Hnd as Hnd'.
    apply wf_dict_cons in Hwf. destruct Hwf as [Hkr [_ Hwr]].
    apply nodots_cons in Hnd. destruct Hnd as [Hk [_ Hnr]].
    rewrite flatten_keys_leaf by assumption. simpl. constructor; auto.
    intro Hin. apply in_map_iff in Hin. destruct Hin as [kv [Hkv Hin]].
    apply (flatten_keys_head r Hnr) in Hin.
    rewrite Hkv, split_dot_nodot in Hin by assumption. contradiction.
  - apply wf_dict_cons in Hwf. destruct Hwf as [Hkr [Hwd Hwr]].
    apply nodots_cons in Hnd. destruct Hnd as [Hk [Hnd Hnr]].
    rewrite flatten_keys_nested. unfold keys. rewrite map_app, map_map.
    apply NoDup_app.
    + replace (map (fun x => fst (add_prefix k x)) (flatten_keys d))
        with (map (fun s => (k ++ "." ++ s)%string) (keys (flatten_keys d)))
        by (unfold keys; rewrite map_map; reflexivity).
      apply NoDup_map_injective; [|now apply IHd].
      intros a b H. now apply append_injective, append_injective in H.
    + now apply IHr.
    + intros key H1 H2.
      apply in_map_iff in H1. destruct H1 as [kv1 [<- _]].
      apply in_map_iff in H2. destruct H2 as [kv2 [E Hin]].
      apply (flatten_keys_head r Hnr) in Hin.
      unfold add_prefix in E. cbn [fst] in E.
      rewrite E, split_dot_prefix in Hin by assumption. contradiction.
Qed.

Lemma dict_of_pairs_acc (l : list (string * pyval)) :
  forall acc,
    NoDup (keys acc ++ keys l) ->
    fold_left (fun d kv => dict_set (fst kv) (snd kv) d) l acc = acc ++ l.
Proof.
  induction l as [|[k v] r IH]; intros acc Hnd; simpl.
  - now rewrite app_nil_r.
  - assert (~ In k (keys acc)) as Hk.
    { intro Hin. simpl in Hnd. apply NoDup_remove_2 in Hnd.
      apply Hnd, in_or_app. now left. }
    rewrite dict_set_absent by now apply dict_get_absent_iff.
    rewrite IH.
    + now rewrite <- app_assoc.
    + unfold keys in *. rewrite map_app. simpl in *. now rewrite <- app_assoc.
Qed.

Lemma dict_of_pairs_NoDup (l : list (string * pyval)) :
  NoDup (keys l) -> dict_of_pairs l = l.
Proof. intro H. unfold dict_of_pairs. now rewrite dict_of_pairs_acc. Qed.

Lemma expand_flatten_prune (m : dict) :
  wf_dict m = true -> nodots m = true ->
  expand_dict (dict_of_pairs (flatten_keys m)) = prune m.
Proof.
  intros Hwf Hnd.
  rewrite dict_of_pairs_NoDup by now apply flatten_keys_NoDup.
  rewrite expand_dict_from. now rewrite expand_from_flatten.
Qed.

Lemma dict_get_prune_leaf (k : string) (x : pyval) (m : dict) :
  dict_get k m = Some x -> is_dict x = false ->
  dict_get k (prune m) = Some x.
Proof.
  induction m as [|[k0 y] r IH]; simpl; [discriminate|].
  intros H Hx. rewrite prune_cons.
  destruct (String.eqb k k0) eqn:E.
  - injection H as ->. destruct x; try discriminate; simpl; now rewrite E.
  - destruct y; simpl; rewrite ?E; auto.
    destruct (prune d); simpl; rewrite ?E; auto.
Qed.

Lemma dict_get_prune_nested (k : string) (d m : dict) :
  dict_get k m = Some (VDict d) -> prune d <> [] ->
  dict_get k (prune m) = Some (VDict (prune d)).
Proof.
  induction m as [|[k0 y] r IH]; simpl; [discriminate|].
  intros H Hd. rewrite prune_cons.
  destruct (String.eqb k k0) eqn:E.
  - injection H as ->. destruct (prune d); [congruence|].
    simpl. now rewrite E.
  - destruct y; simpl; rewrite ?E; auto.
    destruct (prune d0); simpl; rewrite ?E; auto.
Qed.

Lemma lookup_path_prune (p : list string) :
  forall m v,
    lookup_path (VDict m) p = Some v -> is_dict v = false ->
    lookup_path (VDict (prune m)) p = Some v.
Proof.
  induction p as [|k p IH]; intros m v H Hv.
  - injection H as <-. discriminate.
  - simpl in H. destruct (dict_get k m) as [x|] eqn:Eg; [|discriminate].
    destruct x;
      try (destruct p; [|discriminate]; simpl in H; injection H as <-;
           simpl; now rewrite (dict_get_prune_leaf _ _ _ Eg)).
    destruct p as [|k' p'].
    + simpl in H. injection H as <-. discriminate.
    + specialize (IH d v H Hv).
      cbn [lookup_path].
      rewrite (dict_get_prune_nested _ _ _ Eg); [exact IH|].
      intro C. rewrite C in IH. discriminate.
Qed.

(** ** The deep merge *)

Lemma merge_entry_leaf (c : dict) (k : string) (v : pyval) :
  is_dict v = false -> merge_entry c (k, v) = dict_set k v c.
Proof.
  intro H. unfold merge_entry. cbn [fst snd].
  destruct (dict_get k c) as [x1|]; [|reflexivity].
  destruct x1, v; try reflexivity; discriminate.
Qed.

Lemma merge_entry_get_other (c : dict) (k key : string) (x : pyval) :
  k <> key -> dict_get key (merge_entry c (k, x)) = dict_get key c.
Proof.
  intro H. unfold merge_entry. cbn [fst snd].
  destruct (dict_get k c) as [x1|]; [|now apply dict_get_set_other].
  destruct x1, x; now apply dict_get_set_other.
Qed.

Lemma merge_entry_get_same (c : dict) (k : string) (x : pyval) :
  dict_get k (merge_entry c (k, x)) = merged_binding (dict_get k c) (Some x).
Proof.
  unfold merge_entry. cbn [fst snd].
  destruct (dict_get k c) as [x1|]; [|now rewrite dict_get_set_same].
  destruct x1, x; rewrite dict_get_set_same; reflexivity.
Qed.

Lemma merged_binding_none (b1 : option pyval) : merged_binding b1 None = b1.
Proof. destruct b1 as [[]|]; reflexivity. Qed.

Lemma merge_dicts_get (d2 : dict) :
  forall d1 key,
    NoDup (keys d2) ->
    dict_get key (merge_dicts d1 d2)
    = merged_binding (dict_get key d1) (dict_get key d2).
Proof.
  induction d2 as [|[k x] r IH]; intros d1 key Hnd.
  - simpl. now rewrite merged_binding_none.
  - inversion Hnd as [|k0 l Hk Hr]; subst.
    rewrite merge_dicts_cons, IH by assumption. simpl.
    destruct (String.eqb key k) eqn:E.
    + apply String.eqb_eq in E. subst key.
      assert (dict_get k r = None) as -> by now apply dict_get_absent_iff.
      rewrite merged_binding_none. apply merge_entry_get_same.
    + apply String.eqb_neq in E.
      rewrite merge_entry_get_other by congruence. reflexivity.
Qed.

Lemma lookup_path_cons (d : dict) (k : string) (p : list string) :
  lookup_path (VDict d) (k :: p)
  = match dict_get k d with
    | Some x => lookup_path x p
    | None => None
    end.
Proof. reflexivity. Qed.

Lemma chain_lookup (p : list string) (v : pyval) :
  p <> [] -> lookup_path (VDict (chain p v)) p = Some v.
Proof.
  induction p as [|k p IH]; [congruence|]. intros _.
  destruct p as [|k' p'].
  - simpl. now rewrite String.eqb_refl.
  - rewrite chain_cons by discriminate. rewrite lookup_path_cons.
    cbn [dict_get]. rewrite String.eqb_refl. apply IH. discriminate.
Qed.

Lemma merge_chain_lookup (p : list string) (v : pyval) :
  p <> [] -> is_dict v = false ->
  forall c, lookup_path (VDict (merge_dicts c (chain p v))) p = Some v.
Proof.
  intros Hp Hv. induction p as [|k p IH]; [congruence|]. intro c.
  destruct p as [|k' p'].
  - cbn [chain]. rewrite merge_dicts_single, merge_entry_leaf by assumption.
    simpl. now rewrite dict_get_set_same.
  - rewrite chain_cons by discriminate. rewrite merge_dicts_single.
    rewrite lookup_path_cons, merge_entry_get_same.
    destruct (dict_get k c) as [x1|]; cbn [merged_binding].
    + destruct x1; try (apply chain_lookup; discriminate).
      apply IH. discriminate.
    + apply chain_lookup. discriminate.
Qed.

Lemma expand_dict_last (b : dict) (k : string) (v : pyval) :
  is_dict v = false ->
  lookup_path (VDict (expand_dict (b ++ [(k, v)]))) (split_dot k) = Some v.
Proof.
  intro Hv. rewrite expand_dict_from, expand_from_app.
  rewrite expand_from_cons. cbn [fst snd expand_from fold_left].
  rewrite build_child_chain.
  apply merge_chain_lookup; [apply split_dot_nonempty | assumption].
Qed.

(** ** The transforms: main results *)

(** C6. [flatten_keys] returns the depth-first sequence of (dot-joined
    path, leaf value) pairs of a nested mapping: it agrees with the
    enumeration [dfs_pairs], which visits keys in iteration order, enters a
    nested mapping before the next sibling and takes every value that is
    not a mapping (a list included) as a leaf.  On a single-level mapping
    it returns the mapping's entries unchanged. *)
Theorem flatten_keys_depth_first (d : dict) :
  flatten_keys d = dfs_pairs d
  /\ (single_level d = true -> flatten_keys d = d).
Proof.
  split; [apply flatten_keys_dfs | apply flatten_keys_single_level].
Qed.

Lemma flatten_keys_depth_first_witness :
  single_level flat_example = true
  /\ flatten_keys flat_example = dfs_pairs flat_example
  /\ flatten_keys flat_example = flat_example.
Proof.
  destruct (flatten_keys_depth_first flat_example) as [H1 H2].
  split; [reflexivity | split; [exact H1 | apply H2; reflexivity]].
Defined.

(** C10. A key bound to an empty mapping contributes no pair to the output
    of [flatten_keys], wherever it stands in the mapping; flattening
    [{k: {}}] gives the empty list, and expanding that list does not bring
    the key back. *)
Theorem flatten_keys_drops_empty (k : string) (d1 d2 : dict) :
  flatten_keys [(k, VDict [])] = []
  /\ flatten_keys (d1 ++ (k, VDict []) :: d2) = flatten_keys (d1 ++ d2)
  /\ expand_dict (dict_of_pairs (flatten_keys [(k, VDict [])])) = []
  /\ dict_get k (expand_dict (dict_of_pairs (flatten_keys [(k, VDict [])])))
     = None.
Proof.
  assert (flatten_keys [(k, VDict [])] = []) as E by reflexivity.
  split; [exact E | split; [| rewrite E; split; reflexivity]].
  rewrite !flatten_keys_app, flatten_keys_cons. reflexivity.
Qed.

(** C9. On a mapping none of whose keys contains the delimiter,
    [expand_dict] returns a mapping with the same bindings, in the same
    order. *)
Theorem expand_dict_identity_on_flat (b : dict) :
  nodupb (keys b) = true ->
  forallb (fun k => negb (has_dot k)) (keys b) = true ->
  expand_dict b = b.
Proof.
  intros Hnd Hdots. rewrite expand_dict_from.
  rewrite expand_from_nodots; auto. simpl. now apply nodupb_NoDup.
Qed.

Lemma expand_dict_identity_on_flat_witness :
  nodupb (keys docstring_config) = true
  /\ forallb (fun k => negb (has_dot k)) (keys docstring_config) = true
  /\ expand_dict docstring_config = docstring_config.
Proof.
  split; [reflexivity | split; [reflexivity|]].
  apply expand_dict_identity_on_flat; reflexivity.
Defined.

Lemma split_join (p : list string) :
  is_path p = true -> split_dot (join "." p) = p.
Proof.
  induction p as [|k p IH]; [discriminate|]. intro H.
  cbn [is_path forallb] in H. apply andb_true_iff in H.
  destruct H as [Hk Hp]. apply negb_true_iff in Hk.
  destruct p as [|k' p'].
  - now apply split_dot_nodot.
  - rewrite join_cons by discriminate.
    rewrite split_dot_prefix by assumption. f_equal. now apply IH.
Qed.

Lemma is_path_nonempty (p : list string) : is_path p = true -> p <> [].
Proof. destruct p; discriminate. Qed.

Lemma has_dot_split (s : string) :
  forallb (fun t => negb (has_dot t)) (split_dot s) = true.
Proof.
  induction s as [|c r IH]; [reflexivity|]. cbn [split_dot].
  destruct (Ascii.eqb c dot) eqn:E; [exact IH|].
  destruct (split_dot r) as [|h t]; simpl in *; rewrite E; [reflexivity|].
  exact IH.
Qed.

Lemma split_dot_is_path (s : string) : is_path (split_dot s) = true.
Proof.
  pose proof (has_dot_split s) as H.
  destruct (split_dot s) eqn:E; [now apply split_dot_nonempty in E | exact H].
Qed.

Lemma join_head_char (sep : string) (c : ascii) (h : string)
    (t : list string) :
  join sep (String c h :: t) = String c (join sep (h :: t)).
Proof. destruct t; reflexivity. Qed.

Lemma join_split_dot (s : string) : join "." (split_dot s) = s.
Proof.
  induction s as [|c r IH]; [reflexivity|]. cbn [split_dot].
  destruct (Ascii.eqb c dot) eqn:E.
  - apply Ascii.eqb_eq in E. subst c.
    rewrite join_cons by apply split_dot_nonempty. now rewrite IH.
  - destruct (split_dot r) as [|h t] eqn:Es.
    + now apply split_dot_nonempty in Es.
    + now rewrite join_head_char, IH.
Qed.

Lemma merge_chain_other (p : list string) (v : pyval) :
  forall q c w,
    diverge p q = true ->
    lookup_path (VDict c) q = Some w ->
    lookup_path (VDict (merge_dicts c (chain p v))) q = Some w.
Proof.
  induction p as [|k p IH]; intros q c w Hd Hq; [discriminate|].
  destruct q as [|k' q]; [discriminate|]. cbn [diverge] in Hd.
  rewrite lookup_path_cons in Hq |- *.
  destruct (String.eqb k k') eqn:E.
  - apply String.eqb_eq in E. subst k'.
    destruct p as [|k1 p1]; [destruct q; discriminate|].
    destruct q as [|k2 q2]; [discriminate|].
    rewrite chain_cons by discriminate.
    rewrite merge_dicts_single, merge_entry_get_same.
    destruct (dict_get k c) as [x|]; [|discriminate].
    destruct x; try discriminate.
    cbn [merged_binding]. now apply IH.
  - apply String.eqb_neq in E.
    assert (exists X, chain (k :: p) v = [(k, X)]) as [X ->]
      by (destruct p; eexists; reflexivity).
    rewrite merge_dicts_single, merge_entry_get_other by assumption.
    exact Hq.
Qed.

Lemma expand_from_preserves (q : list string) (w : pyval)
    (later : list (list string * pyval)) :
  forall c,
    forallb (fun pl => is_path (fst pl) && diverge (fst pl) q) later = true ->
    lookup_path (VDict c) q = Some w ->
    lookup_path (VDict (expand_from c (map flat_entry later))) q = Some w.
Proof.
  induction later as [|[p v] later IH]; intros c Hd Hq; [exact Hq|].
  simpl in Hd. apply andb_true_iff in Hd. destruct Hd as [Hk Hl].
  apply andb_true_iff in Hk. destruct Hk as [Hp Hdiv].
  cbn [map]. rewrite expand_from_cons. apply IH; [assumption|].
  unfold flat_entry. cbn [fst snd].
  rewrite build_child_chain, split_join by assumption.
  now apply merge_chain_other.
Qed.

Lemma expand_dict_snoc (b : dict) (p : list string) (v : pyval) :
  is_path p = true ->
  expand_dict (b ++ [(join "." p, v)])
  = merge_dicts (expand_dict b) (chain p v).
Proof.
  intro Hp. rewrite !expand_dict_from, expand_from_app, expand_from_cons.
  cbn [fst snd expand_from fold_left].
  now rewrite build_child_chain, split_join.
Qed.

Lemma chain_keys (p : list string) (v : pyval) : NoDup (keys (chain p v)).
Proof.
  destruct p as [|k [|k' p']]; simpl; repeat constructor; intros [].
Qed.

(** C7. [expand_dict] builds its result from the empty mapping, taking
    the entries of the flat mapping in their input order: the entry
    applied last is merged into the expansion of those before it.  Every
    key is split on the delimiter, the key whose segments are [p] into
    [p] itself, and the chain of single-key mappings along [p] that ends
    at the value is deep-merged into the result: a key that both sides
    bind to mappings is merged recursively, so that what is bound at a
    path that parts ways with [p] stays, and otherwise the later binding
    replaces the earlier one, so that the entry applied last is found at
    its own path, whatever the earlier entries bound there.  (The flat
    mapping holds leaf values: none of them is a mapping.) *)
Theorem expand_dict_deep_merge (b : dict) (p q : list string) (v w : pyval)
    (key : string) :
  leaf_valued b = true ->
  is_dict v = false ->
  is_path p = true ->
  expand_dict [] = []
  /\ (forall s, is_path (split_dot s) = true /\ join "." (split_dot s) = s)
  /\ split_dot (join "." p) = p
  /\ expand_dict (b ++ [(join "." p, v)])
     = merge_dicts (expand_dict b) (chain p v)
  /\ dict_get key (merge_dicts (expand_dict b) (chain p v))
     = merged_binding (dict_get key (expand_dict b))
                      (dict_get key (chain p v))
  /\ (diverge p q = true ->
      lookup_path (VDict (expand_dict b)) q = Some w ->
      lookup_path (VDict (expand_dict (b ++ [(join "." p, v)]))) q = Some w)
  /\ lookup_path (VDict (expand_dict (b ++ [(join "." p, v)]))) p = Some v.
Proof.
  intros Hb Hv Hp.
  split; [reflexivity|].
  split; [intro s; split; [apply split_dot_is_path | apply join_split_dot]|].
  split; [now apply split_join|].
  split; [now apply expand_dict_snoc|].
  split; [apply merge_dicts_get, chain_keys|].
  rewrite expand_dict_snoc by assumption. split.
  - intros Hd Hq. now apply merge_chain_other.
  - apply merge_chain_lookup; [now apply is_path_nonempty | assumption].
Qed.

Lemma expand_dict_deep_merge_witness :
  leaf_valued dotted_example = true
  /\ is_dict (VInt 7) = false
  /\ is_path ["a"; "b"] = true
  /\ diverge ["a"; "b"] ["a"; "c"] = true
  /\ lookup_path (VDict (expand_dict dotted_example)) ["a"; "c"]
     = Some (VInt 2)
  /\ split_dot "a.b" = ["a"; "b"]
  /\ lookup_path (VDict (expand_dict (dotted_example ++ [("a.b", VInt 7)])))
                 ["a"; "c"] = Some (VInt 2)
  /\ lookup_path (VDict (expand_dict (dotted_example ++ [("a.b", VInt 7)])))
                 ["a"; "b"] = Some (VInt 7).
Proof.
  destruct (expand_dict_deep_merge dotted_example ["a"; "b"] ["a"; "c"]
              (VInt 7) (VInt 2) "a" eq_refl eq_refl eq_refl)
    as [_ [_ [Hs [_ [_ [Hq Hl]]]]]].
  do 5 (split; [reflexivity|]).
  split; [exact Hs|]. split; [exact (Hq eq_refl eq_refl) | exact Hl].
Defined.

(** C2. Round trip: for a nested mapping [m] whose keys are unique at every
    level and contain no delimiter, expanding the mapping formed from
    [flatten_keys m] gives back the leaf value of [m] at every path. *)
Theorem expand_flatten_round_trip (m : dict) (p : list string) (v : pyval) :
  wf_dict m = true ->
  nodots m = true ->
  lookup_path (VDict m) p = Some v ->
  is_dict v = false ->
  lookup_path (VDict (expand_dict (dict_of_pairs (flatten_keys m)))) p
  = Some v.
Proof.
  intros Hwf Hnd Hp Hv.
  rewrite expand_flatten_prune by assumption.
  now apply lookup_path_prune.
Qed.

Lemma expand_flatten_round_trip_witness :
  wf_dict docstring_config = true
  /\ nodots docstring_config = true
  /\ lookup_path (VDict docstring_config) ["arg2"; "obj2"] = Some (VStr "foo")
  /\ is_dict (VStr "foo") = false
  /\ lookup_path
       (VDict (expand_dict (dict_of_pairs (flatten_keys docstring_config))))
       ["arg2"; "obj2"] = Some (VStr "foo").
Proof.
  repeat (split; [reflexivity|]).
  apply expand_flatten_round_trip; reflexivity.
Defined.

(** ** Registration under the conflict handler *)

Import Argparse CustomArgumentParser.

Lemma strip_same (s : string) (l : list string) :
  existsb (String.eqb s)
          (filter (fun s' => negb (existsb (String.eqb s') [s])) l) = false.
Proof.
  induction l as [|a l IH]; simpl; auto.
  rewrite orb_false_r. destruct (String.eqb a s) eqn:E; simpl; auto.
  rewrite String.eqb_sym, E. exact IH.
Qed.

Lemma strip_other (s s2 : string) (l : list string) :
  s <> s2 ->
  existsb (String.eqb s)
          (filter (fun s' => negb (existsb (String.eqb s') [s2])) l)
  = existsb (String.eqb s) l.
Proof.
  intro Hne. induction l as [|a l IH]; simpl in *; auto.
  rewrite orb_false_r. destruct (String.eqb a s2) eqn:E; simpl.
  - apply String.eqb_eq in E. subst a.
    apply String.eqb_neq in Hne. now rewrite Hne.
  - now rewrite IH.
Qed.

Lemma resolve_cons (s : string) (a : action) (acts : list action) :
  resolve [s] (a :: acts)
  = (if has_option s a then
       match filter (fun s' => negb (existsb (String.eqb s') [s]))
                    (option_strings a) with
       | [] => []
       | remaining =>
           [mkAction remaining (dest a) (default a) (type a) (kind a)]
       end
     else [a]) ++ resolve [s] acts.
Proof.
  unfold resolve. cbn [flat_map existsb]. now rewrite orb_false_r.
Qed.

Lemma resolve_strips (s : string) (acts : list action) :
  filter (has_option s) (resolve [s] acts) = [].
Proof.
  induction acts as [|a acts IH]; [reflexivity|].
  rewrite resolve_cons, filter_app, IH, app_nil_r.
  destruct (has_option s a) eqn:E.
  - pose proof (strip_same s (option_strings a)) as Hs.
    destruct (filter _ (option_strings a)); [reflexivity|].
    cbn [filter]. unfold has_option at 1. cbn [option_strings].
    now rewrite Hs.
  - cbn [filter]. now rewrite E.
Qed.

Lemma resolve_preserves (s s2 : string) (acts : list action) :
  s <> s2 ->
  (forall a, In a acts -> has_option s a = true -> has_option s2 a = false) ->
  filter (has_option s) (resolve [s2] acts) = filter (has_option s) acts.
Proof.
  intros Hne. induction acts as [|a acts IH]; intro H; [reflexivity|].
  rewrite resolve_cons, filter_app, IH
    by (intros a' Hin; apply H; now right).
  cbn [filter]. f_equal.
  destruct (has_option s2 a) eqn:E2.
  - assert (has_option s a = false) as E.
    { destruct (has_option s a) eqn:E; auto.
      rewrite (H a (or_introl eq_refl) E) in E2. discriminate. }
    rewrite E. pose proof (strip_other s s2 (option_strings a) Hne) as Hs.
    destruct (filter _ (option_strings a)); [reflexivity|].
    cbn [filter]. unfold has_option at 1. cbn [option_strings].
    rewrite Hs. fold (has_option s a). now rewrite E.
  - cbn [filter]. destruct (has_option s a); reflexivity.
Qed.

Lemma find_option_filter (s : string) (acts : list action) :
  find_option s acts = hd_error (filter (has_option s) acts).
Proof.
  unfold find_option. induction acts as [|a acts IH]; simpl; auto.
  destruct (has_option s a); auto.
Qed.

Lemma find_option_none (s : string) (acts : list action) :
  find_option s acts = None -> filter (has_option s) acts = [].
Proof.
  unfold find_option. induction acts as [|a acts IH]; simpl; auto.
  destruct (has_option s a); [discriminate | auto].
Qed.

Lemma long_option_neq (k k' : string) :
  k <> k' -> ("--" ++ k)%string <> ("--" ++ k')%string.
Proof. intros H E. apply H. now inversion E. Qed.

Lemma has_option_config_action (s k : string) (v : pyval) :
  has_option s (config_action k v) = String.eqb s ("--" ++ k).
Proof. unfold has_option. simpl. now rewrite orb_false_r. Qed.

Lemma is_negative_number_long (k : string) :
  is_negative_number ("--" ++ k) = false.
Proof.
  simpl. destruct (split_once "." k) as [[a b]|]; reflexivity.
Qed.

Lemma add_argument_config (p : parser) (k : string) (v : pyval) :
  conflict_handler p = HandlerResolve ->
  registrable k = true ->
  add_argument p [("--" ++ k)%string] v (Some (type_of v))
  = Ok (mkParser HandlerResolve
          (match find_option ("--" ++ k) (actions p) with
           | Some _ => resolve [("--" ++ k)%string] (actions p)
           | None => actions p
           end ++ [config_action k v])
          (has_negative_number_optionals p)).
Proof.
  intros Hh Hk. unfold registrable in Hk. apply negb_true_iff in Hk.
  unfold add_argument, infer_dest. cbn [app String.append starts_with_dash
    forallb filter is_long negb andb Ascii.eqb Bool.eqb hd lstrip_dash].
  simpl. rewrite Hk. cbn [bind]. unfold add_action.
  cbn [option_strings filter].
  assert (existsb is_negative_number [String "-" (String "-" k)] = false)
    as Hneg.
  { cbn [existsb]. rewrite orb_false_r. apply (is_negative_number_long k). }
  rewrite Hneg, orb_false_r.
  destruct (find_option _ (actions p)) eqn:E; cbn [bind]; rewrite ?Hh;
    reflexivity.
Qed.

Lemma filter_singleton_In {A : Type} (f : A -> bool) (l : list A) (a x : A) :
  filter f l = [a] -> In x l -> f x = true -> x = a.
Proof.
  intros Hf Hin Hx.
  assert (In x (filter f l)) as H by (apply filter_In; auto).
  rewrite Hf in H. destruct H as [-> | []]. reflexivity.
Qed.

Lemma add_argument_config_holder (p : parser) (k : string) (v : pyval) :
  conflict_handler p = HandlerResolve ->
  registrable k = true ->
  exists p1,
    add_argument p [("--" ++ k)%string] v (Some (type_of v)) = Ok p1
    /\ conflict_handler p1 = HandlerResolve
    /\ has_negative_number_optionals p1 = has_negative_number_optionals p
    /\ filter (has_option ("--" ++ k)) (actions p1) = [config_action k v]
    /\ (forall s a,
          s <> ("--" ++ k)%string ->
          filter (has_option s) (actions p) = [a] ->
          has_option ("--" ++ k) a = false ->
          filter (has_option s) (actions p1) = [a]).
Proof.
  intros Hh Hk. eexists. split; [now apply add_argument_config|].
  cbn [conflict_handler has_negative_number_optionals actions].
  split; [reflexivity | split; [reflexivity|]].
  assert (filter (has_option ("--" ++ k)) [config_action k v]
          = [config_action k v]) as Hnew.
  { cbn [filter]. rewrite has_option_config_action, String.eqb_refl.
    reflexivity. }
  split.
  - rewrite filter_app, Hnew.
    destruct (find_option _ (actions p)) eqn:E.
    + now rewrite resolve_strips.
    + now rewrite (find_option_none _ _ E).
  - intros s a Hne Hf Ha. rewrite filter_app.
    assert (filter (has_option s) [config_action k v] = []) as ->.
    { cbn [filter]. rewrite has_option_config_action.
      apply String.eqb_neq in Hne. now rewrite Hne. }
    rewrite app_nil_r.
    destruct (find_option _ (actions p)) eqn:E; [|assumption].
    rewrite resolve_preserves; auto.
    intros old Hin Hold.
    now rewrite (filter_singleton_In _ _ _ _ Hf Hin Hold).
Qed.

Lemma register_config_stuck (flat : list (string * pyval))
    (m : outcome parser) :
  is_ok m = false ->
  fold_left
    (fun acc kv =>
       self <- acc ;;
       add_argument self [("--" ++ fst kv)%string] (snd kv)
                    (Some (type_of (snd kv))))
    flat m = m.
Proof.
  revert m. induction flat as [|kv r IH]; intros m Hm; [reflexivity|].
  cbn [fold_left]. destruct m; try discriminate; now apply IH.
Qed.

Lemma register_config_cons (p : parser) (kv : string * pyval)
    (r : list (string * pyval)) :
  register_config p (kv :: r)
  = p1 <- add_argument p [("--" ++ fst kv)%string] (snd kv)
                       (Some (type_of (snd kv))) ;;
    register_config p1 r.
Proof.
  unfold register_config. cbn [fold_left bind].
  destruct (add_argument p _ _ _) eqn:E; cbn [bind];
    try reflexivity; now apply register_config_stuck.
Qed.

Lemma register_config_keeps (r : list (string * pyval)) :
  forall p p' k v,
    conflict_handler p = HandlerResolve ->
    forallb registrable (keys r) = true ->
    register_config p r = Ok p' ->
    ~ In k (keys r) ->
    filter (has_option ("--" ++ k)) (actions p) = [config_action k v] ->
    filter (has_option ("--" ++ k)) (actions p') = [config_action k v].
Proof.
  induction r as [|[k0 v0] r IH]; intros p p' k v Hh Hreg Hok Hk Hf.
  - injection Hok as <-. assumption.
  - simpl in Hreg. apply andb_true_iff in Hreg. destruct Hreg as [Hk0 Hr].
    rewrite register_config_cons in Hok. cbn [fst snd] in Hok.
    destruct (add_argument_config_holder p k0 v0 Hh Hk0)
      as [p1 [E [Hh1 [_ [_ Hkeep]]]]].
    rewrite E in Hok. cbn [bind] in Hok.
    apply (IH p1 p' k v); auto.
    + intro Hin. apply Hk. now right.
    + apply Hkeep; auto.
      * apply long_option_neq. intros ->. apply Hk. now left.
      * rewrite has_option_config_action. apply String.eqb_neq.
        apply long_option_neq. intros ->. apply Hk. now left.
Qed.

Lemma register_config_ok (flat : list (string * pyval)) :
  forall p,
    conflict_handler p = HandlerResolve ->
    forallb registrable (keys flat) = true ->
    exists p',
      register_config p flat = Ok p'
      /\ conflict_handler p' = HandlerResolve
      /\ has_negative_number_optionals p' = has_negative_number_optionals p
      /\ forall l1 k v l2,
           flat = l1 ++ (k, v) :: l2 ->
           ~ In k (keys l2) ->
           filter (has_option ("--" ++ k)) (actions p') = [config_action k v].
Proof.
  induction flat as [|[k0 v0] r IH]; intros p Hh Hreg.
  - exists p. repeat split; auto.
    intros l1 k v l2 E. destruct l1; discriminate.
  - simpl in Hreg. apply andb_true_iff in Hreg. destruct Hreg as [Hk0 Hr].
    destruct (add_argument_config_holder p k0 v0 Hh Hk0)
      as [p1 [E [Hh1 [Hn1 [Hnew _]]]]].
    destruct (IH p1 Hh1 Hr) as [p' [E' [Hh' [Hn' Hall]]]].
    exists p'. rewrite register_config_cons. cbn [fst snd].
    rewrite E. cbn [bind]. repeat split; auto; try congruence.
    intros l1 k v l2 Hflat Hk. destruct l1 as [|e l1].
    + simpl in Hflat. injection Hflat as -> -> ->.
      now apply (register_config_keeps l2 p1 p').
    + simpl in Hflat. injection Hflat as _ ->. now apply (Hall l1 k v l2).
Qed.

Lemma add_argument_config_invalid (p : parser) (k : string) (v : pyval) :
  registrable k = false ->
  add_argument p [("--" ++ k)%string] v (Some (type_of v))
  = Raise (ValueError (DestRequired ("--" ++ k))).
Proof.
  intro Hk. unfold registrable in Hk. apply negb_false_iff in Hk.
  unfold add_argument, infer_dest. simpl. now rewrite Hk.
Qed.

Lemma register_config_registrable (flat : list (string * pyval)) :
  forall p p',
    register_config p flat = Ok p' ->
    forallb registrable (keys flat) = true.
Proof.
  induction flat as [|[k v] r IH]; intros p p' H; [reflexivity|].
  rewrite register_config_cons in H. cbn [fst snd] in H. simpl.
  destruct (registrable k) eqn:Ek.
  - destruct (add_argument p _ _ _) as [p1| | |]; try discriminate.
    cbn [bind] in H. simpl. now apply (IH p1 p').
  - rewrite add_argument_config_invalid in H by assumption. discriminate.
Qed.

Lemma registration_holder (p p' : parser) (l1 l2 : list (string * pyval))
    (k : string) (v : pyval) :
  conflict_handler p = HandlerResolve ->
  register_config p (l1 ++ (k, v) :: l2) = Ok p' ->
  ~ In k (keys l2) ->
  find_option ("--" ++ k) (actions p') = Some (config_action k v)
  /\ filter (has_option ("--" ++ k)) (actions p') = [config_action k v].
Proof.
  intros Hh Hreg Hk.
  pose proof (register_config_registrable _ _ _ Hreg) as Hkeys.
  destruct (register_config_ok _ p Hh Hkeys) as [q [E [_ [_ Hall]]]].
  rewrite Hreg in E. injection E as <-.
  pose proof (Hall l1 k v l2 eq_refl Hk) as Hf.
  split; [|exact Hf]. now rewrite find_option_filter, Hf.
Qed.

(** C8. Every [CustomArgumentParser] has the conflict handler [resolve],
    whatever keyword arguments it is built with.  Under it the registration
    of the config-derived arguments never fails on a name that is already
    declared: whether [register_config] succeeds depends on the config keys
    alone (each must leave a destination once its dashes are stripped), not
    on what the parser holds.  After it, the only action holding the option
    string [--k] is the one declared for the last entry of key [k]: the
    newer declaration has replaced the older one. *)
Theorem registration_resolves_conflicts (kw : kwargs) (p : parser)
    (flat : list (string * pyval)) :
  conflict_handler p = HandlerResolve ->
  conflict_handler (CustomArgumentParser.init kw) = HandlerResolve
  /\ is_ok (register_config p flat) = forallb registrable (keys flat)
  /\ forall p' l1 k v l2,
       register_config p flat = Ok p' ->
       flat = l1 ++ (k, v) :: l2 ->
       ~ In k (keys l2) ->
       conflict_handler p' = HandlerResolve
       /\ find_option ("--" ++ k) (actions p') = Some (config_action k v)
       /\ filter (has_option ("--" ++ k)) (actions p') = [config_action k v].
Proof.
  intro Hh. split; [destruct kw as [h [|]]; reflexivity|]. split.
  - destruct (forallb registrable (keys flat)) eqn:Hreg.
    + destruct (register_config_ok flat p Hh Hreg) as [p' [E _]].
      now rewrite E.
    + destruct (register_config p flat) as [p'| | |] eqn:E; try reflexivity.
      apply register_config_registrable in E. congruence.
  - intros p' l1 k v l2 Hreg -> Hk.
    pose proof (register_config_registrable _ _ _ Hreg) as Hkeys.
    destruct (register_config_ok _ p Hh Hkeys) as [q [E [Hq _]]].
    rewrite Hreg in E. injection E as <-.
    split; [exact Hq|]. now apply (registration_holder p p' l1 l2 k v).
Qed.

Lemma registration_resolves_conflicts_witness :
  conflict_handler driver = HandlerResolve
  /\ find_option "--datafile" (actions driver) <> None
  /\ is_ok (register_config driver datafile_config) = true
  /\ forall p',
       register_config driver datafile_config = Ok p' ->
       find_option "--datafile" (actions p')
       = Some (config_action "datafile" (VStr "d.txt")).
Proof.
  split; [reflexivity | split; [discriminate|]].
  destruct (registration_resolves_conflicts
              (mkKwargs HandlerError true) driver datafile_config eq_refl)
    as [_ [Hok H]].
  split; [exact Hok|].
  intros p' E.
  apply (H p' [] "datafile" (VStr "d.txt") [] E eq_refl (fun F : False => F)).
Defined.

(** Under the default handler of [argparse] the same registration raises
    the conflict; with [resolve] the older action keeps its other name. *)
Example datafile_collision :
  add_argument (mkParser HandlerError (actions driver) false)
               ["--datafile"] (VStr "d.txt") (Some TStr)
  = Raise (ConflictError "--datafile" (ConflictingOptionStrings ["--datafile"]))
  /\ exists p',
       register_config driver datafile_config = Ok p'
       /\ find_option "-d" (actions p')
          = Some (mkAction ["-d"] "datafile" VNone None Store)
       /\ find_option "--datafile" (actions p')
          = Some (mkAction ["--datafile"] "datafile" (VStr "d.txt")
                           (Some TStr) Store).
Proof. split; [reflexivity|]. eexists. repeat split. Qed.

(** ** The parse loop *)










(** The type-matching scenario of the specification, end to end; and a
    string-typed argument, which takes the token as it is in the second
    pass. *)
Example count_scenario :
  run_args count_config count_argv
  = Exit 2 (Some (ArgumentError "--count" (InvalidValue "int" "abc")))
  /\ exists p' ns unknown,
       register_config driver (flatten_keys name_config) = Ok p'
       /\ Argparse.parse_known_args p' ["-c"; "config.py"; "--name"; "42"]
          = Ok (ns, unknown)
       /\ dict_get "name" ns = Some (VStr "42").
Proof.
  split; [reflexivity|]. do 3 eexists.
  split; [reflexivity|]. split; reflexivity.
Qed.

(** ** parse_args *)

(** C5. When [parse_known_args] returns, the unrecognized strings it
    returns are those of the second parse pass, and [parse_args] leaves
    through the parser's error path (exit status 2) with the message
    [unrecognized arguments: ] followed by all of them exactly when that
    list is not empty; when it is empty [parse_args] returns the
    namespace. *)
Theorem parse_args_unrecognized (load_config : pyval -> option dict)
    (self self' : parser) (argv : list string) (args : dict)
    (unknown : list string) :
  CustomArgumentParser.parse_known_args load_config self argv
  = Ok (self', (args, unknown)) ->
  (unknown <> [] <->
   CustomArgumentParser.parse_args load_config self argv
   = Exit 2 (Some (Message ("unrecognized arguments: " ++ join " " unknown))))
  /\ (unknown = [] <->
      CustomArgumentParser.parse_args load_config self argv = Ok (self', args))
  /\ exists ns, Argparse.parse_known_args self' (tl argv) = Ok (ns, unknown).
Proof.
  intro H. unfold CustomArgumentParser.parse_args. rewrite H. cbn [bind].
  split; [|split].
  - destruct unknown; split; intro H'; try congruence; try discriminate.
    reflexivity.
  - destruct unknown; split; intro H'; try congruence; try discriminate.
  - unfold CustomArgumentParser.parse_known_args in H.
    destruct (Argparse.parse_known_args self (tl argv)) as [[args1 unk1]| | |];
      try discriminate.
    cbn [bind] in H.
    destruct (dict_get "configfile" args1); try discriminate.
    cbn [bind] in H.
    destruct (load_config p); try discriminate. cbn [bind] in H.
    destruct (register_config self (flatten_keys d)) as [p1| | |];
      try discriminate.
    cbn [bind] in H.
    destruct (Argparse.parse_known_args p1 (tl argv))
      as [[args2 unk2]| | |] eqn:E2; try discriminate.
    cbn [bind] in H. injection H as <- _ <-. now exists args2.
Qed.

Lemma parse_args_unrecognized_witness :
  exists self' args,
    CustomArgumentParser.parse_known_args (one_config priority_config)
      driver unknown_argv = Ok (self', (args, ["--unknown_flag"; "5"]))
    /\ CustomArgumentParser.parse_args (one_config priority_config) driver
         unknown_argv
       = Exit 2 (Some (Message "unrecognized arguments: --unknown_flag 5")).
Proof.
  eexists. eexists.
  assert (forall A (x : A), x = x) as R by reflexivity.
  split; [apply R|].
  apply (proj1 (proj1 (parse_args_unrecognized (one_config priority_config)
                         driver _ unknown_argv _ ["--unknown_flag"; "5"]
                         (R _ _)))).
  discriminate.
Defined.

(** ** The override loop *)

Lemma override_fold_get (config_dict : dict) (argv : list string)
    (key : string) (l : list string) :
  forall d,
    dict_get key
      (fold_left
         (fun args_dict key =>
            match dict_get key config_dict with
            | Some v =>
                if negb (existsb (String.eqb key) argv)
                then dict_set key v args_dict
                else args_dict
            | None => args_dict
            end)
         l d)
    = match dict_get key config_dict with
      | Some v =>
          if existsb (String.eqb key) l && negb (existsb (String.eqb key) argv)
          then Some v
          else dict_get key d
      | None => dict_get key d
      end.
Proof.
  induction l as [|k l IH]; intro d.
  - simpl. destruct (dict_get key config_dict); reflexivity.
  - cbn [fold_left existsb]. rewrite IH.
    destruct (dict_get key config_dict) as [v|] eqn:Ec.
    + destruct (String.eqb key k) eqn:E.
      * apply String.eqb_eq in E. subst k. rewrite Ec. cbn [orb andb].
        destruct (negb (existsb (String.eqb key) argv)) eqn:Ea;
          destruct (existsb (String.eqb key) l); cbn [andb];
          rewrite ?dict_get_set_same; reflexivity.
      * cbn [orb]. apply String.eqb_neq in E.
        destruct (dict_get k config_dict); [|reflexivity].
        destruct (negb (existsb (String.eqb k) argv)); [|reflexivity].
        rewrite dict_get_set_other by congruence. reflexivity.
    + destruct (dict_get k config_dict) as [v|] eqn:Ek; [|reflexivity].
      destruct (negb (existsb (String.eqb k) argv)); [|reflexivity].
      rewrite dict_get_set_other; [reflexivity|]. intros ->. congruence.
Qed.

(** What the override loop computes: a resolved key that is bound in the
    flattened config takes the config value unless the bare key itself is
    one of the strings of [sys.argv]. *)
Lemma ensure_override_priority_get (args_dict config_dict : dict)
    (argv : list string) (key : string) (x v : pyval) :
  dict_get key args_dict = Some x ->
  dict_get key config_dict = Some v ->
  dict_get key (ensure_override_priority args_dict config_dict argv)
  = if existsb (String.eqb key) argv then Some x else Some v.
Proof.
  intros Hx Hv. unfold ensure_override_priority.
  rewrite override_fold_get, Hv, Hx.
  assert (existsb (String.eqb key) (keys args_dict) = true) as ->.
  { apply existsb_exists. exists key. split; [|apply String.eqb_refl].
    destruct (in_dec string_dec key (keys args_dict)) as [H|H]; auto.
    apply dict_get_absent_iff in H. congruence. }
  destruct (existsb (String.eqb key) argv); reflexivity.
Qed.

(** C1 (a defect of the code).  In the priority scenario of the
    specification, config [{'a': 4, 'b': {'x': 1}}] and command line
    [-c config.py --a 3], the second parse pass resolves [a] to the
    command-line value 3, and the override loop then replaces it by the
    config value 4: its test [key not in sys.argv] looks for the bare key
    [a] among the strings of the command line, where the option is written
    [--a].  [b.x] resolves to the config value 1. *)
Theorem command_line_value_overridden :
  exists p' ns2 ns,
    register_config driver (flatten_keys priority_config) = Ok p'
    /\ Argparse.parse_known_args p' (tl priority_argv) = Ok (ns2, [])
    /\ dict_get "a" ns2 = Some (VInt 3)
    /\ ns = ensure_override_priority
              ns2 (dict_of_pairs (flatten_keys priority_config)) priority_argv
    /\ run_known priority_config priority_argv = Ok (ns, [])
    /\ dict_get "a" ns = Some (VInt 4)
    /\ dict_get "b.x" ns = Some (VInt 1).
Proof.
  eexists. eexists. eexists.
  split; [reflexivity|]. split; [reflexivity|]. split; [reflexivity|].
  split; [reflexivity|]. split; [reflexivity|]. split; reflexivity.
Qed.

(** C3 (a defect of the code).  For a boolean config leaf the registered
    type is [bool], and [bool] applied to a token is true for every token
    but the empty one: with config [{'flag': True}] and command line
    [-c config.py --flag False] the second pass, and the final namespace,
    bind [flag] to true. *)
Theorem bool_token_truthy :
  apply_type (Some (type_of (VBool true))) "False" = Some (VBool true)
  /\ (forall tok, tok <> "" -> apply_type (Some TBool) tok = Some (VBool true))
  /\ exists p' ns2 ns,
       register_config driver (flatten_keys flag_config) = Ok p'
       /\ Argparse.parse_known_args p' (tl flag_argv) = Ok (ns2, [])
       /\ dict_get "flag" ns2 = Some (VBool true)
       /\ run_known flag_config flag_argv = Ok (ns, [])
       /\ dict_get "flag" ns = Some (VBool true).
Proof.
  split; [reflexivity|]. split.
  - intros tok Htok. simpl. apply String.eqb_neq in Htok. now rewrite Htok.
  - eexists. eexists. eexists.
    split; [reflexivity|]. split; [reflexivity|]. split; [reflexivity|].
    split; reflexivity.
Qed.

(** * Further properties of the transforms *)

Lemma dict_get_In (k : string) (x : pyval) (d : dict) :
  dict_get k d = Some x -> In (k, x) d.
Proof.
  induction d as [|[k0 y] r IH]; simpl; [discriminate|].
  destruct (String.eqb k k0) eqn:E.
  - apply String.eqb_eq in E. intro H. injection H as ->. left. congruence.
  - intro H. right. auto.
Qed.

Lemma flatten_entry_incl (e : string * pyval) (d : dict) :
  In e d -> forall kv, In kv (flatten_entry e) -> In kv (flatten_keys d).
Proof.
  intros He kv Hkv. rewrite flatten_keys_concat. apply in_flat_map.
  exists e. auto.
Qed.

Lemma flatten_keys_complete (p : list string) :
  forall m v,
    lookup_path (VDict m) p = Some v ->
    is_dict v = false ->
    In (join "." p, v) (flatten_keys m).
Proof.
  induction p as [|k p IH]; intros m v H Hv.
  - injection H as <-. discriminate.
  - rewrite lookup_path_cons in H.
    destruct (dict_get k m) as [x|] eqn:Eg; [|discriminate].
    apply dict_get_In in Eg.
    apply (flatten_entry_incl (k, x) m Eg).
    unfold flatten_entry. cbn [fst snd].
    destruct p as [|k' p'].
    + simpl in H. injection H as ->.
      destruct v; try (now left). discriminate.
    + destruct x; try discriminate.
      rewrite join_cons by discriminate.
      apply in_map_iff. exists (join "." (k' :: p'), v). split; [reflexivity|].
      now apply IH.
Qed.

Lemma flatten_keys_sound (m : dict) :
  wf_dict m = true ->
  nodots m = true ->
  forall key v,
    In (key, v) (flatten_keys m) ->
    lookup_path (VDict m) (split_dot key) = Some v /\ is_dict v = false.
Proof.
  induction m as [| k x r Hx IHr | k d r IHd IHr] using dict_nested_ind;
    intros Hwf Hnd key v Hin.
  - destruct Hin.
  - pose proof Hnd as Hnd0.
    apply wf_dict_cons in Hwf. destruct Hwf as [Hkr [_ Hwr]].
    apply nodots_cons in Hnd. destruct Hnd as [Hk [_ Hnr]].
    rewrite flatten_keys_leaf in Hin by assumption.
    destruct Hin as [E | Hin].
    + injection E as <- <-. rewrite split_dot_nodot by assumption.
      simpl. rewrite String.eqb_refl. auto.
    + pose proof (flatten_keys_head r Hnr _ Hin) as Hhd. cbn [fst] in Hhd.
      destruct (IHr Hwr Hnr key v Hin) as [Hl Hv]. split; [|exact Hv].
      destruct (split_dot key) as [|h t] eqn:Es;
        [now apply split_dot_nonempty in Es|].
      cbn [hd] in Hhd. rewrite lookup_path_cons in Hl |- *.
      cbn [dict_get].
      assert (String.eqb h k = false) as ->; [|exact Hl].
      apply String.eqb_neq. intros ->. contradiction.
  - apply wf_dict_cons in Hwf. destruct Hwf as [Hkr [Hwd Hwr]].
    apply nodots_cons in Hnd. destruct Hnd as [Hk [Hnd Hnr]].
    rewrite flatten_keys_nested in Hin. apply in_app_or in Hin.
    destruct Hin as [Hin | Hin].
    + apply in_map_iff in Hin. destruct Hin as [[k' v'] [E Hin]].
      unfold add_prefix in E. cbn [fst snd] in E.
      assert (key = (k ++ "." ++ k')%string /\ v = v') as [-> ->]
        by (split; congruence).
      destruct (IHd Hwd Hnd k' v' Hin) as [Hl Hv]. split; [|exact Hv].
      rewrite split_dot_prefix by assumption.
      rewrite lookup_path_cons. cbn [dict_get]. now rewrite String.eqb_refl.
    + pose proof (flatten_keys_head r Hnr _ Hin) as Hhd. cbn [fst] in Hhd.
      destruct (IHr Hwr Hnr key v Hin) as [Hl Hv]. split; [|exact Hv].
      destruct (split_dot key) as [|h t] eqn:Es;
        [now apply split_dot_nonempty in Es|].
      cbn [hd] in Hhd. rewrite lookup_path_cons in Hl |- *.
      cbn [dict_get].
      assert (String.eqb h k = false) as ->; [|exact Hl].
      apply String.eqb_neq. intros ->. contradiction.
Qed.

Lemma flatten_keys_values (d : dict) :
  forall kv, In kv (flatten_keys d) -> is_dict (snd kv) = false.
Proof.
  induction d as [| k x r Hx IHr | k d r IHd IHr] using dict_nested_ind;
    intros kv Hin.
  - destruct Hin.
  - rewrite flatten_keys_leaf in Hin by assumption.
    destruct Hin as [<- | Hin]; auto.
  - rewrite flatten_keys_nested in Hin. apply in_app_or in Hin.
    destruct Hin as [Hin | Hin]; [|auto].
    apply in_map_iff in Hin. destruct Hin as [kv' [<- Hin]].
    unfold add_prefix. cbn [snd]. auto.
Qed.

Lemma prune_nested (k : string) (d r : dict) :
  prune ((k, VDict d) :: r)
  = match prune d with [] => [] | d' => [(k, VDict d')] end ++ prune r.
Proof. now rewrite prune_cons. Qed.

Lemma flatten_keys_prune (m : dict) :
  flatten_keys (prune m) = flatten_keys m.
Proof.
  induction m as [| k x r Hx IHr | k d r IHd IHr] using dict_nested_ind.
  - reflexivity.
  - rewrite prune_leaf by assumption.
    rewrite !flatten_keys_leaf by assumption. now rewrite IHr.
  - rewrite prune_nested, flatten_keys_nested, flatten_keys_app, IHr.
    f_equal. rewrite <- IHd.
    destruct (prune d) as [|e l]; [reflexivity|].
    rewrite flatten_keys_nested. cbn [flatten_keys flatten_val fold_left].
    now rewrite app_nil_r.
Qed.

Lemma leafy_cons (k : string) (x : pyval) (r : dict) :
  leafy ((k, x) :: r) = true ->
  match x with
  | VDict d => flatten_keys d <> [] /\ leafy d = true
  | _ => True
  end /\ leafy r = true.
Proof.
  unfold leafy, flatten_keys. cbn [leafy_val forallb fst snd].
  rewrite andb_true_iff. intros [Hx Hr]. split; [|exact Hr].
  destruct x; auto.
  destruct (flatten_val (VDict d)); [discriminate|]. split; [discriminate|auto].
Qed.

Lemma prune_leafy (m : dict) : leafy m = true -> prune m = m.
Proof.
  induction m as [| k x r Hx IHr | k d r IHd IHr] using dict_nested_ind;
    intro H.
  - reflexivity.
  - apply leafy_cons in H. destruct H as [_ Hr].
    rewrite prune_leaf by assumption. now rewrite IHr.
  - apply leafy_cons in H. destruct H as [[Hne Hd] Hr].
    rewrite prune_nested, IHr, IHd by assumption.
    destruct d as [|e l]; [now contradiction Hne|reflexivity].
Qed.

(** ** More on merge_dicts *)

Lemma merge_entry_cons_other (k k2 : string) (x x2 : pyval) (d1 : dict) :
  k2 <> k ->
  merge_entry ((k, x) :: d1) (k2, x2) = (k, x) :: merge_entry d1 (k2, x2).
Proof.
  intro Hne. apply String.eqb_neq in Hne.
  unfold merge_entry. cbn [fst snd dict_get]. rewrite Hne.
  destruct (dict_get k2 d1) as [x1|]; [destruct x1, x2|];
    cbn [dict_set]; now rewrite Hne.
Qed.

Lemma merge_dicts_cons_left (k : string) (x : pyval) (d2 : dict) :
  forall d1,
    ~ In k (keys d2) ->
    merge_dicts ((k, x) :: d1) d2 = (k, x) :: merge_dicts d1 d2.
Proof.
  induction d2 as [|[k2 x2] r IH]; intros d1 Hk; [reflexivity|].
  rewrite !merge_dicts_cons, merge_entry_cons_other.
  - apply IH. intro Hin. apply Hk. now right.
  - intros ->. apply Hk. now left.
Qed.

Lemma merge_dicts_same (d : dict) : wf_dict d = true -> merge_dicts d d = d.
Proof.
  induction d as [| k x r Hx IHr | k d r IHd IHr] using dict_nested_ind;
    intro Hwf.
  - reflexivity.
  - apply wf_dict_cons in Hwf. destruct Hwf as [Hkr [_ Hwr]].
    rewrite merge_dicts_cons, merge_entry_leaf by assumption.
    cbn [dict_set]. rewrite String.eqb_refl.
    rewrite merge_dicts_cons_left by assumption. now rewrite IHr.
  - apply wf_dict_cons in Hwf. destruct Hwf as [Hkr [Hwd Hwr]].
    rewrite merge_dicts_cons.
    pose proof (merge_entry_nested [] r d d k (fun F : False => F)) as E.
    cbn [app] in E. rewrite E, IHd by assumption.
    rewrite merge_dicts_cons_left by assumption. now rewrite IHr.
Qed.

Lemma keys_dict_set (k : string) (v : pyval) (d : dict) :
  keys (dict_set k v d) = if dict_mem k d then keys d else keys d ++ [k].
Proof.
  unfold dict_mem. induction d as [|[k0 x] r IH]; simpl; [reflexivity|].
  destruct (String.eqb k k0) eqn:E; simpl.
  - apply String.eqb_eq in E. now subst.
  - rewrite IH. destruct (dict_get k r); reflexivity.
Qed.

Lemma merge_entry_set (d1 : dict) (k : string) (x : pyval) :
  exists y, merge_entry d1 (k, x) = dict_set k y d1.
Proof.
  unfold merge_entry. cbn [fst snd].
  destruct (dict_get k d1) as [x1|]; [destruct x1, x|]; eexists; reflexivity.
Qed.

Lemma dict_mem_set (k k' : string) (v : pyval) (d : dict) :
  dict_mem k' (dict_set k v d) = dict_mem k' d || String.eqb k' k.
Proof.
  unfold dict_mem. destruct (String.eqb k' k) eqn:E.
  - apply String.eqb_eq in E. subst. rewrite dict_get_set_same.
    now rewrite orb_true_r.
  - apply String.eqb_neq in E. rewrite dict_get_set_other by congruence.
    now rewrite orb_false_r.
Qed.

Lemma merge_dicts_keys (d2 : dict) :
  forall d1,
    NoDup (keys d2) ->
    keys (merge_dicts d1 d2) = merged_keys d1 d2.
Proof.
  unfold merged_keys.
  induction d2 as [|[k x] r IH]; intros d1 Hnd.
  - simpl. now rewrite app_nil_r.
  - inversion Hnd as [|k0 l Hk Hr]; subst.
    rewrite merge_dicts_cons, IH by assumption.
    destruct (merge_entry_set d1 k x) as [y ->].
    rewrite keys_dict_set. unfold keys in *. cbn [map fst filter].
    assert (filter (fun k' => negb (dict_mem k' (dict_set k y d1))) (map fst r)
            = filter (fun k' => negb (dict_mem k' d1)) (map fst r)) as ->.
    { apply filter_ext_in. intros k' Hin. rewrite dict_mem_set.
      assert (String.eqb k' k = false) as ->.
      { apply String.eqb_neq. intros ->. contradiction. }
      now rewrite orb_false_r. }
    destruct (dict_mem k d1); cbn [negb]; [reflexivity|].
    now rewrite <- app_assoc.
Qed.

(** ** More on expand_dict *)

Lemma nodots_single (k : string) (x : pyval) :
  has_dot k = false -> nodots_val x = true -> nodots [(k, x)] = true.
Proof.
  intros Hk Hx. unfold nodots. cbn [nodots_val forallb fst snd].
  now rewrite Hk, Hx.
Qed.

Lemma chain_nodots (p : list string) (v : pyval) :
  forallb (fun t => negb (has_dot t)) p = true ->
  nodots_val v = true ->
  nodots (chain p v) = true.
Proof.
  intros Hp Hv. induction p as [|k p IH]; [reflexivity|].
  simpl in Hp. apply andb_true_iff in Hp. destruct Hp as [Hk Hp].
  apply negb_true_iff in Hk.
  destruct p as [|k' p'].
  - now apply nodots_single.
  - rewrite chain_cons by discriminate. apply nodots_single; auto.
Qed.

Lemma nodots_dict_set (k : string) (v : pyval) (d : dict) :
  nodots d = true -> has_dot k = false -> nodots_val v = true ->
  nodots (dict_set k v d) = true.
Proof.
  intros Hd Hk Hv. induction d as [|[k0 x] r IH].
  - now apply nodots_single.
  - apply nodots_cons in Hd. destruct Hd as [Hk0 [Hx Hr]].
    cbn [dict_set]. destruct (String.eqb k k0);
      unfold nodots; cbn [nodots_val forallb fst snd]; rewrite Hk0.
    + now rewrite Hv.
    + rewrite Hx. now apply IH.
Qed.

Lemma nodots_get (k : string) (x : pyval) (d : dict) :
  nodots d = true -> dict_get k d = Some x -> nodots_val x = true.
Proof.
  induction d as [|[k0 y] r IH]; simpl; [discriminate|].
  intros Hd Hg. apply nodots_cons in Hd. destruct Hd as [_ [Hy Hr]].
  destruct (String.eqb k k0); [congruence | auto].
Qed.

Lemma merge_dicts_nodots (d2 : dict) :
  forall d1,
    nodots d1 = true -> nodots d2 = true ->
    nodots (merge_dicts d1 d2) = true.
Proof.
  induction d2 as [| k x r Hx IHr | k d r IHd IHr] using dict_nested_ind;
    intros d1 H1 H2.
  - exact H1.
  - apply nodots_cons in H2. destruct H2 as [Hk [Hv Hr]].
    rewrite merge_dicts_cons, merge_entry_leaf by assumption.
    apply IHr; [|assumption]. now apply nodots_dict_set.
  - apply nodots_cons in H2. destruct H2 as [Hk [Hd Hr]].
    rewrite merge_dicts_cons. apply IHr; [|assumption].
    unfold merge_entry. cbn [fst snd].
    destruct (dict_get k d1) as [x1|] eqn:Eg;
      [|now apply nodots_dict_set].
    destruct x1; try (now apply nodots_dict_set).
    apply nodots_dict_set; auto.
    apply (IHd d0); [|assumption].
    exact (nodots_get _ _ _ H1 Eg).
Qed.

Lemma expand_from_nodots_result (b : list (string * pyval)) :
  forall c,
    nodots c = true ->
    forallb (fun kv => nodots_val (snd kv)) b = true ->
    nodots (expand_from c b) = true.
Proof.
  induction b as [|[k v] b IH]; intros c Hc Hb; [exact Hc|].
  simpl in Hb. apply andb_true_iff in Hb. destruct Hb as [Hv Hb].
  rewrite expand_from_cons. apply IH; [|assumption]. cbn [fst snd].
  apply merge_dicts_nodots; [assumption|].
  rewrite build_child_chain. apply chain_nodots; [apply has_dot_split | assumption].
Qed.

(** * Further properties of the parser *)

(** ** The namespace and the unrecognized strings of a parse *)

Lemma dict_mem_set_keeps (k k' : string) (v : pyval) (d : dict) :
  dict_mem k' d = true -> dict_mem k' (dict_set k v d) = true.
Proof. intro H. now rewrite dict_mem_set, H. Qed.

Lemma dict_mem_set_inv (k k' : string) (v : pyval) (d : dict) :
  dict_mem k' (dict_set k v d) = true -> dict_mem k' d = true \/ k' = k.
Proof.
  rewrite dict_mem_set. intro H. apply orb_true_iff in H.
  destruct H as [H | H]; [now left | right; now apply String.eqb_eq].
Qed.

Lemma find_option_In (s : string) (acts : list action) (a : action) :
  find_option s acts = Some a -> In a acts.
Proof. unfold find_option. intro H. now apply find_some in H. Qed.

Lemma classify_Flag_In (p : parser) (tok s : string) (a : action)
    (e : option string) :
  classify p tok = Flag a s e -> In a (actions p).
Proof.
  unfold classify.
  destruct (String.eqb tok "--"); [discriminate|].
  destruct (negb (starts_with_dash tok)); [discriminate|].
  destruct (find_option tok (actions p)) as [a0|] eqn:E.
  - intro H. injection H as <- _ _. now apply find_option_In in E.
  - destruct (Nat.eqb (String.length tok) 1); [discriminate|].
    destruct (split_once "=" tok) as [[o e0]|].
    + destruct (find_option o (actions p)) as [a0|] eqn:Eo.
      * apply find_option_In in Eo.
        destruct (kind a0); [|destruct (is_long o)]; intro H;
          try discriminate; injection H as <- _ _; assumption.
      * destruct (abbreviates (actions p) tok); [discriminate|].
        destruct (negb (plain_text tok)); [discriminate|].
        destruct (_ && _); [discriminate|].
        destruct (contains " " tok); discriminate.
    + destruct (abbreviates (actions p) tok); [discriminate|].
      destruct (negb (plain_text tok)); [discriminate|].
      destruct (_ && _); [discriminate|].
      destruct (contains " " tok); discriminate.
Qed.

Lemma consume_facts (n : nat) :
  forall toks p ns seen extras ns' seen' extras',
    (List.length toks <= n)%nat ->
    consume p ns seen extras toks = Ok (ns', seen', extras') ->
    (forall k, dict_mem k ns = true -> dict_mem k ns' = true)
    /\ (forall k, dict_mem k ns' = true ->
                  dict_mem k ns = true \/ declares p k)
    /\ (forall t, In t extras' -> In t extras \/ In t toks).
Proof.
  induction n as [|n IH]; intros toks p ns seen extras ns' seen' extras' Hlen H.
  - destruct toks; [|simpl in Hlen; lia].
    simpl in H. injection H as <- <- <-. auto.
  - destruct toks as [|tok rest].
    { simpl in H. injection H as <- <- <-. auto. }
    simpl in Hlen. cbn [consume] in H.
    destruct (classify p tok) as [ | a s e | | ] eqn:Ec; try discriminate.
    + apply IH in H; [|lia]. destruct H as [H1 [H2 H3]].
      repeat split; auto. intros t Ht. apply H3 in Ht.
      destruct Ht as [Ht | Ht]; [|right; now right].
      apply in_app_or in Ht. destruct Ht as [Ht | [<- | []]]; auto.
      right. now left.
    + pose proof (classify_Flag_In _ _ _ _ _ Ec) as Ha.
      destruct (kind a) eqn:Ek; [|destruct e; discriminate].
      assert (forall v rest0 ,
                (List.length rest0 <= n)%nat ->
                (forall t, In t rest0 -> In t (tok :: rest)) ->
                consume p (dict_set (dest a) v ns) (s :: seen) extras rest0
                = Ok (ns', seen', extras') ->
                (forall k, dict_mem k ns = true -> dict_mem k ns' = true)
                /\ (forall k, dict_mem k ns' = true ->
                              dict_mem k ns = true \/ declares p k)
                /\ (forall t, In t extras' -> In t extras \/ In t (tok :: rest)))
        as Hstep.
      { intros v rest0 Hl Hsub Hc. apply IH in Hc; [|assumption].
        destruct Hc as [H1 [H2 H3]]. repeat split.
        - intros k Hk. apply H1. now apply dict_mem_set_keeps.
        - intros k Hk. apply H2 in Hk. destruct Hk as [Hk | Hk]; auto.
          apply dict_mem_set_inv in Hk. destruct Hk as [Hk | ->]; auto.
          right. exists a. auto.
        - intros t Ht. apply H3 in Ht. destruct Ht as [Ht | Ht]; auto. }
      destruct e as [e|].
      * destruct (get_value a e); try discriminate.
        apply (Hstep a0 rest); auto; [lia | intros t Ht; now right].
      * destruct rest as [|arg rest']; [discriminate|].
        destruct (classify p arg); try discriminate.
        destruct (get_value a arg); try discriminate.
        simpl in Hlen.
        apply (Hstep a0 rest'); auto; [lia | intros t Ht; right; now right].
    + apply IH in H; [|lia]. destruct H as [H1 [H2 H3]].
      repeat split; auto. intros t Ht. apply H3 in Ht.
      destruct Ht as [Ht | Ht]; [|right; now right].
      apply in_app_or in Ht. destruct Ht as [Ht | [<- | []]]; auto.
      right. now left.
Qed.

Lemma initial_namespace_facts (acts : list action) :
  forall acc ns',
    fold_left
      (fun acc a =>
         ns <- acc ;;
         match kind a with
         | Store =>
             match hasattr ns (dest a) with
             | Some true => Ok ns
             | Some false => Ok (dict_set (dest a) (default a) ns)
             | None => Unmodelled
             end
         | Help => Ok ns
         end)
      acts acc = Ok ns' ->
    exists ns,
      acc = Ok ns
      /\ (forall k, dict_mem k ns = true -> dict_mem k ns' = true)
      /\ (forall a, In a acts -> kind a = Store ->
                    dict_mem (dest a) ns' = true)
      /\ (forall k, dict_mem k ns' = true ->
                    dict_mem k ns = true
                    \/ exists a, In a acts /\ kind a = Store /\ dest a = k).
Proof.
  induction acts as [|a acts IH]; intros acc ns' H; cbn [fold_left] in H.
  - exists ns'. repeat split; auto; intros a [].
  - apply IH in H. destruct H as [ns1 [E [H1 [H2 H3]]]].
    destruct acc as [ns| | |]; try discriminate. cbn [bind] in E.
    exists ns. split; [reflexivity|].
    assert ((forall k, dict_mem k ns = true -> dict_mem k ns1 = true)
            /\ (kind a = Store -> dict_mem (dest a) ns1 = true)
            /\ (forall k, dict_mem k ns1 = true ->
                          dict_mem k ns = true \/ (kind a = Store /\ dest a = k)))
      as [U1 [U2 U3]].
    { destruct (kind a) eqn:Ek.
      - unfold hasattr in E.
        destruct (starts_with_underscore (dest a)); [discriminate|].
        destruct (dict_mem (dest a) ns) eqn:Em; injection E as <-.
        + repeat split; auto.
        + repeat split.
          * intros k Hk. now apply dict_mem_set_keeps.
          * intros _. rewrite dict_mem_set, String.eqb_refl.
            now rewrite orb_true_r.
          * intros k Hk. apply dict_mem_set_inv in Hk.
            destruct Hk as [Hk | ->]; auto.
      - injection E as <-. repeat split; auto. discriminate. }
    repeat split.
    + intros k Hk. apply H1, U1, Hk.
    + intros a0 [<- | Hin] Hs; [apply H1, U2, Hs | now apply H2].
    + intros k Hk. apply H3 in Hk. destruct Hk as [Hk | [a0 [Hin [Hs Hd]]]].
      * apply U3 in Hk. destruct Hk as [Hk | [Hs Hd]]; auto.
        right. exists a. repeat split; auto. now left.
      * right. exists a0. repeat split; auto. now right.
Qed.

Lemma convert_defaults_facts (seen : list string) (acts : list action) :
  forall acc ns',
    fold_left
      (fun acc a =>
         ns <- acc ;;
         match kind a, default a with
         | Store, VStr s =>
             if existsb (fun o => has_option o a) seen then Ok ns
             else
               match dict_get (dest a) ns with
               | Some (VStr s') =>
                   if String.eqb s s' then
                     v <- get_value a s ;; Ok (dict_set (dest a) v ns)
                   else Ok ns
               | _ => Ok ns
               end
         | _, _ => Ok ns
         end)
      acts acc = Ok ns' ->
    exists ns,
      acc = Ok ns
      /\ (forall k, dict_mem k ns' = dict_mem k ns).
Proof.
  induction acts as [|a acts IH]; intros acc ns' H; cbn [fold_left] in H.
  - exists ns'. auto.
  - apply IH in H. destruct H as [ns1 [E Hk]].
    destruct acc as [ns| | |]; try discriminate. cbn [bind] in E.
    exists ns. split; [reflexivity|]. intro k. rewrite Hk.
    destruct (kind a); [|congruence].
    destruct (default a); try congruence.
    destruct (existsb _ seen); [congruence|].
    destruct (dict_get (dest a) ns) as [x|] eqn:Eg; [|congruence].
    destruct x; try congruence.
    destruct (String.eqb s s0); [|congruence].
    destruct (get_value a s); try discriminate. cbn [bind] in E.
    injection E as <-. rewrite dict_mem_set.
    destruct (String.eqb k (dest a)) eqn:Ek; [|now rewrite orb_false_r].
    apply String.eqb_eq in Ek. subst k. unfold dict_mem. now rewrite Eg.
Qed.

Lemma parse_namespace_keys (p : parser) (args : list string) (ns : dict)
    (extras : list string) :
  Argparse.parse_known_args p args = Ok (ns, extras) ->
  (forall k, dict_mem k ns = true <-> declares p k)
  /\ (forall t, In t extras -> In t args).
Proof.
  unfold Argparse.parse_known_args.
  destruct (existsb (not_modelled p) args); [discriminate|].
  destruct (initial_namespace (actions p)) as [ns0| | |] eqn:Ei;
    try discriminate.
  cbn [bind].
  destruct (consume p ns0 [] [] args)
    as [[[ns1 seen] extras1]| | |] eqn:Ec; try discriminate.
  cbn [bind].
  destruct (convert_defaults (actions p) seen ns1) as [ns2| | |] eqn:Ed;
    try discriminate.
  cbn [bind]. intro H. injection H as <- <-.
  apply (consume_facts (List.length args)) in Ec; [|lia].
  destruct Ec as [H1 [H2 H3]].
  apply convert_defaults_facts in Ed. destruct Ed as [ns3 [E3 Hk]].
  injection E3 as <-.
  unfold initial_namespace in Ei. apply initial_namespace_facts in Ei.
  destruct Ei as [ns00 [E00 [_ [I2 I3]]]]. injection E00 as <-.
  split.
  - intro k. rewrite Hk. split.
    + intro Hm. apply H2 in Hm. destruct Hm as [Hm | Hm]; [|exact Hm].
      apply I3 in Hm. destruct Hm as [Hm | Hm]; [discriminate | exact Hm].
    + intros [a [Hin [Hs <-]]]. apply H1. now apply I2.
  - intros t Ht. apply H3 in Ht. destruct Ht as [[] | Ht]. exact Ht.
Qed.

(** ** The registration loop, again *)

Lemma resolve_untouched (s : string) (acts : list action) :
  (forall a, In a acts -> has_option s a = false) ->
  resolve [s] acts = acts.
Proof.
  induction acts as [|a acts IH]; intro H; [reflexivity|].
  rewrite resolve_cons, (H a (or_introl eq_refl)), IH; [reflexivity|].
  intros a' Hin. apply H. now right.
Qed.

Lemma resolve_app (s : string) (a b : list action) :
  resolve [s] (a ++ b) = resolve [s] a ++ resolve [s] b.
Proof. unfold resolve. apply flat_map_app. Qed.

Lemma resolve_keeps_absent (s s2 : string) (acts : list action) :
  (forall a, In a acts -> has_option s a = false) ->
  forall a, In a (resolve [s2] acts) -> has_option s a = false.
Proof.
  induction acts as [|a0 acts IH]; intros H a Hin; [destruct Hin|].
  rewrite resolve_cons in Hin. apply in_app_or in Hin.
  destruct Hin as [Hin | Hin]; [|apply IH; auto; intros a' Ha'; apply H; now right].
  pose proof (H a0 (or_introl eq_refl)) as H0.
  destruct (has_option s2 a0); [|destruct Hin as [<- | []]; exact H0].
  destruct (filter _ (option_strings a0)) as [|o l] eqn:Ef; [destruct Hin|].
  destruct Hin as [<- | []]. unfold has_option in *. cbn [option_strings].
  rewrite <- Ef.
  destruct (existsb (String.eqb s) (filter _ (option_strings a0))) eqn:E; auto.
  apply existsb_exists in E. destruct E as [x [Hx E]].
  apply filter_In in Hx. destruct Hx as [Hx _].
  rewrite <- H0. symmetry. apply existsb_exists. eauto.
Qed.

Lemma resolve_strips_all (s : string) (acts : list action) :
  forall a, In a (resolve [s] acts) -> has_option s a = false.
Proof.
  intros a Hin. pose proof (resolve_strips s acts) as H.
  destruct (has_option s a) eqn:E; auto.
  assert (In a (filter (has_option s) (resolve [s] acts))) as C
    by (apply filter_In; auto).
  rewrite H in C. destruct C.
Qed.

Lemma resolve_all_strips (ks : list string) :
  forall acts k,
    In k ks ->
    forall a, In a (resolve_all ks acts) ->
              has_option ("--" ++ k) a = false.
Proof.
  unfold resolve_all.
  induction ks as [|k0 ks IH]; intros acts k Hk a Hin; [destruct Hk|].
  cbn [fold_left] in Hin. destruct Hk as [-> | Hk]; [|eapply IH; eauto].
  clear IH. revert Hin.
  generalize (resolve_strips_all ("--" ++ k) acts).
  generalize (resolve [("--" ++ k)%string] acts). clear acts.
  induction ks as [|k1 ks IH]; intros acts H Hin; [now apply H|].
  cbn [fold_left] in Hin. eapply IH; [|exact Hin].
  now apply resolve_keeps_absent.
Qed.

Lemma resolve_all_snoc (ks : list string) (k : string) (v : pyval) :
  forall acts,
    ~ In k ks ->
    resolve_all ks (acts ++ [config_action k v])
    = resolve_all ks acts ++ [config_action k v].
Proof.
  unfold resolve_all.
  induction ks as [|k0 ks IH]; intros acts Hk; [reflexivity|].
  cbn [fold_left]. rewrite resolve_app.
  rewrite (resolve_untouched _ [config_action k v]).
  - apply IH. intro Hin. apply Hk. now right.
  - intros a [<- | []]. rewrite has_option_config_action.
    apply String.eqb_neq, long_option_neq. intros ->. apply Hk. now left.
Qed.

Lemma resolve_absent (s : string) (acts : list action) :
  find_option s acts = None -> resolve [s] acts = acts.
Proof.
  intro H. apply resolve_untouched. intros a Hin.
  destruct (has_option s a) eqn:E; auto.
  apply find_option_none in H.
  assert (In a (filter (has_option s) acts)) as C by (apply filter_In; auto).
  rewrite H in C. destruct C.
Qed.

Lemma add_argument_config_shape (p : parser) (k : string) (v : pyval) :
  conflict_handler p = HandlerResolve ->
  registrable k = true ->
  add_argument p [("--" ++ k)%string] v (Some (type_of v))
  = Ok (mkParser HandlerResolve
          (resolve [("--" ++ k)%string] (actions p) ++ [config_action k v])
          (has_negative_number_optionals p)).
Proof.
  intros Hh Hk. rewrite add_argument_config by assumption.
  destruct (find_option _ (actions p)) eqn:E; [reflexivity|].
  now rewrite (resolve_absent _ _ E).
Qed.

Lemma register_config_shape (flat : list (string * pyval)) :
  forall p,
    conflict_handler p = HandlerResolve ->
    forallb registrable (keys flat) = true ->
    NoDup (keys flat) ->
    register_config p flat
    = Ok (mkParser HandlerResolve
            (resolve_all (keys flat) (actions p) ++ config_actions flat)
            (has_negative_number_optionals p)).
Proof.
  induction flat as [|[k v] r IH]; intros p Hh Hreg Hnd.
  - destruct p as [h acts n]. simpl in *. subst h.
    unfold register_config, resolve_all. simpl. now rewrite app_nil_r.
  - simpl in Hreg. apply andb_true_iff in Hreg. destruct Hreg as [Hk Hr].
    inversion Hnd as [|k0 l Hkr Hnr]; subst.
    rewrite register_config_cons. cbn [fst snd].
    rewrite add_argument_config_shape by assumption. cbn [bind].
    rewrite IH by auto.
    cbn [actions has_negative_number_optionals keys map fst].
    rewrite resolve_all_snoc by assumption.
    unfold resolve_all at 2. cbn [fold_left].
    fold (resolve_all (map fst r) (resolve [("--" ++ k)%string] (actions p))).
    unfold config_actions. cbn [map fst snd].
    now rewrite <- app_assoc.
Qed.

Lemma register_config_again (rest : list (string * pyval)) :
  forall B D n,
    forallb registrable (keys rest) = true ->
    NoDup (keys rest) ->
    (forall k a, In k (keys rest) -> In a (B ++ D) ->
                 has_option ("--" ++ k) a = false) ->
    register_config
      (mkParser HandlerResolve (B ++ config_actions rest ++ D) n) rest
    = Ok (mkParser HandlerResolve (B ++ D ++ config_actions rest) n).
Proof.
  induction rest as [|[k v] r IH]; intros B D n Hreg Hnd Hfree.
  - unfold register_config, config_actions. simpl. now rewrite app_nil_r.
  - simpl in Hreg. apply andb_true_iff in Hreg. destruct Hreg as [Hk Hr].
    inversion Hnd as [|k0 l Hkr Hnr]; subst.
    rewrite register_config_cons. cbn [fst snd].
    rewrite add_argument_config_shape by (auto; reflexivity).
    cbn [bind actions has_negative_number_optionals].
    unfold config_actions at 1. cbn [map fst snd].
    fold (config_actions r).
    assert (resolve [("--" ++ k)%string]
              (B ++ (config_action k v :: config_actions r) ++ D)
            = B ++ config_actions r ++ D) as ->.
    { change (config_action k v :: config_actions r)
        with ([config_action k v] ++ config_actions r).
      rewrite !resolve_app.
      rewrite (resolve_untouched _ B), (resolve_untouched _ D),
        (resolve_untouched _ (config_actions r)).
      - assert (resolve [("--" ++ k)%string] [config_action k v] = []) as ->.
        { rewrite resolve_cons, has_option_config_action, String.eqb_refl.
          cbn [option_strings config_action filter existsb].
          now rewrite String.eqb_refl. }
        reflexivity.
      - intros a Hin. unfold config_actions in Hin.
        apply in_map_iff in Hin. destruct Hin as [[k' v'] [<- Hin]].
        cbn [fst snd]. rewrite has_option_config_action.
        apply String.eqb_neq, long_option_neq. intros ->.
        apply Hkr. apply in_map_iff. exists (k', v'). auto.
      - intros a Hin. apply (Hfree k a); [now left | apply in_or_app; auto].
      - intros a Hin. apply (Hfree k a); [now left | apply in_or_app; auto]. }
    replace ((B ++ config_actions r ++ D) ++ [config_action k v])
      with (B ++ config_actions r ++ (D ++ [config_action k v]))
      by (now rewrite <- !app_assoc).
    rewrite IH; auto.
    + unfold config_actions. cbn [map fst snd].
      now rewrite <- app_assoc.
    + intros k' a Hk' Hin. apply in_app_or in Hin.
      destruct Hin as [Hin | Hin].
      * apply (Hfree k' a); [now right | apply in_or_app; auto].
      * apply in_app_or in Hin. destruct Hin as [Hin | [<- | []]].
        -- apply (Hfree k' a); [now right | apply in_or_app; auto].
        -- rewrite has_option_config_action.
           apply String.eqb_neq, long_option_neq. intros ->. contradiction.
Qed.

(** ** The orchestrator, stage by stage *)

Lemma parse_known_args_inv (load_config : pyval -> option dict)
    (self self' : parser) (argv : list string) (args : dict)
    (unknown : list string) :
  CustomArgumentParser.parse_known_args load_config self argv
  = Ok (self', (args, unknown)) ->
  exists args1 unknown1 configfile config ns2,
    Argparse.parse_known_args self (tl argv) = Ok (args1, unknown1)
    /\ dict_get "configfile" args1 = Some configfile
    /\ load_config configfile = Some config
    /\ register_config self (flatten_keys config) = Ok self'
    /\ Argparse.parse_known_args self' (tl argv) = Ok (ns2, unknown)
    /\ args = ensure_override_priority
                ns2 (dict_of_pairs (flatten_keys config)) argv.
Proof.
  intro H. unfold CustomArgumentParser.parse_known_args in H.
  destruct (Argparse.parse_known_args self (tl argv))
    as [[args1 unk1]| | |] eqn:E1; try discriminate.
  cbn [bind] in H.
  destruct (dict_get "configfile" args1) as [cf|] eqn:Ecf; try discriminate.
  cbn [bind] in H.
  destruct (load_config cf) as [config|] eqn:El; try discriminate.
  cbn [bind] in H.
  destruct (register_config self (flatten_keys config)) as [p1| | |] eqn:Er;
    try discriminate.
  cbn [bind] in H.
  destruct (Argparse.parse_known_args p1 (tl argv))
    as [[ns2 unk2]| | |] eqn:E2; try discriminate.
  cbn [bind] in H. injection H as <- <- <-.
  exists args1, unk1, cf, config, ns2. repeat split; auto.
Qed.

Lemma parse_known_args_stages (load_config : pyval -> option dict)
    (self self' : parser) (argv : list string) (args1 ns2 : dict)
    (unknown1 unknown : list string) (configfile : pyval) (config : dict) :
  Argparse.parse_known_args self (tl argv) = Ok (args1, unknown1) ->
  dict_get "configfile" args1 = Some configfile ->
  load_config configfile = Some config ->
  register_config self (flatten_keys config) = Ok self' ->
  Argparse.parse_known_args self' (tl argv) = Ok (ns2, unknown) ->
  CustomArgumentParser.parse_known_args load_config self argv
  = Ok (self',
        (ensure_override_priority
           ns2 (dict_of_pairs (flatten_keys config)) argv, unknown)).
Proof.
  intros H1 Hcf Hl Hr H2. unfold CustomArgumentParser.parse_known_args.
  rewrite H1. cbn [bind]. rewrite Hcf. cbn [bind]. rewrite Hl. cbn [bind].
  rewrite Hr. cbn [bind]. rewrite H2. reflexivity.
Qed.

Lemma override_fold_keys (config_dict : dict) (argv l : list string) :
  forall d,
    (forall k, In k l -> dict_mem k d = true) ->
    keys
      (fold_left
         (fun args_dict key =>
            match dict_get key config_dict with
            | Some v =>
                if negb (existsb (String.eqb key) argv)
                then dict_set key v args_dict
                else args_dict
            | None => args_dict
            end)
         l d)
    = keys d.
Proof.
  induction l as [|k l IH]; intros d H; [reflexivity|].
  cbn [fold_left].
  assert (dict_mem k d = true) as Hk by (apply H; now left).
  destruct (dict_get k config_dict) as [v|];
    [destruct (negb (existsb (String.eqb k) argv))|];
    try (apply IH; intros k' Hk'; apply H; now right).
  rewrite IH.
  - now rewrite keys_dict_set, Hk.
  - intros k' Hk'. apply dict_mem_set_keeps. apply H. now right.
Qed.

Lemma dict_mem_keys (k : string) (d : dict) :
  dict_mem k d = true <-> In k (keys d).
Proof.
  unfold dict_mem. pose proof (dict_get_absent_iff k d) as H.
  destruct (dict_get k d) eqn:E.
  - split; auto. intros _.
    destruct (in_dec string_dec k (keys d)) as [Hin|Hin]; auto.
    apply H in Hin. discriminate.
  - split; [discriminate|]. intro Hin. exfalso. now apply (proj1 H).
Qed.

Lemma ensure_override_priority_keys (args_dict config_dict : dict)
    (argv : list string) :
  keys (ensure_override_priority args_dict config_dict argv) = keys args_dict.
Proof.
  unfold ensure_override_priority. apply override_fold_keys.
  intros k Hk. now apply dict_mem_keys.
Qed.

Lemma ensure_override_priority_formula (args_dict config_dict : dict)
    (argv : list string) (key : string) :
  dict_get key (ensure_override_priority args_dict config_dict argv)
  = match dict_get key args_dict, dict_get key config_dict with
    | Some x, Some v => if existsb (String.eqb key) argv then Some x else Some v
    | b, _ => b
    end.
Proof.
  unfold ensure_override_priority. rewrite override_fold_get.
  destruct (dict_get key config_dict) as [v|];
    [|destruct (dict_get key args_dict); reflexivity].
  destruct (dict_get key args_dict) as [x|] eqn:Ex.
  - assert (existsb (String.eqb key) (keys args_dict) = true) as ->.
    { apply existsb_exists. exists key. split; [|apply String.eqb_refl].
      apply dict_mem_keys. unfold dict_mem. now rewrite Ex. }
    destruct (existsb (String.eqb key) argv); reflexivity.
  - assert (existsb (String.eqb key) (keys args_dict) = false) as ->.
    { destruct (existsb (String.eqb key) (keys args_dict)) eqn:E; auto.
      apply existsb_exists in E. destruct E as [k' [Hin E]].
      apply String.eqb_eq in E. subst k'.
      apply dict_mem_keys in Hin. unfold dict_mem in Hin.
      rewrite Ex in Hin. discriminate. }
    reflexivity.
Qed.

Lemma fold_set_get_other (k : string) (l : list (string * pyval)) :
  forall acc,
    ~ In k (keys l) ->
    dict_get k (fold_left (fun d kv => dict_set (fst kv) (snd kv) d) l acc)
    = dict_get k acc.
Proof.
  induction l as [|[k0 v0] l IH]; intros acc Hk; [reflexivity|].
  cbn [fold_left fst snd]. rewrite IH.
  - apply dict_get_set_other. intros ->. apply Hk. now left.
  - intro Hin. apply Hk. now right.
Qed.

Lemma dict_of_pairs_last (l1 l2 : list (string * pyval)) (k : string)
    (v : pyval) :
  ~ In k (keys l2) ->
  dict_get k (dict_of_pairs (l1 ++ (k, v) :: l2)) = Some v.
Proof.
  intro Hk. unfold dict_of_pairs. rewrite fold_left_app. cbn [fold_left fst snd].
  rewrite fold_set_get_other by assumption. apply dict_get_set_same.
Qed.

Lemma register_config_rerun (p p' : parser) (flat : list (string * pyval)) :
  conflict_handler p = HandlerResolve ->
  NoDup (keys flat) ->
  register_config p flat = Ok p' ->
  p' = mkParser HandlerResolve
         (resolve_all (keys flat) (actions p) ++ config_actions flat)
         (has_negative_number_optionals p)
  /\ register_config p' flat = Ok p'.
Proof.
  intros Hh Hnd Hreg.
  pose proof (register_config_registrable _ _ _ Hreg) as Hkeys.
  rewrite register_config_shape in Hreg by assumption.
  injection Hreg as <-. split; [reflexivity|].
  pose proof (register_config_again flat
                (resolve_all (keys flat) (actions p)) []
                (has_negative_number_optionals p) Hkeys Hnd) as H.
  rewrite !app_nil_r in H. cbn [app] in H. apply H.
  intros k a Hk Hin. now apply (resolve_all_strips (keys flat) (actions p) k).
Qed.

(** * Further results *)

(** X1. For a nested mapping with unique keys at every level and no dotted
    key, [flatten_keys] lists exactly the leaves: a pair [(key, v)] is in
    the output if and only if [v] is not a mapping and is the value found
    in the mapping along the segments of [key]. *)
Theorem flatten_keys_lists_leaves (m : dict) (key : string) (v : pyval) :
  wf_dict m = true ->
  nodots m = true ->
  In (key, v) (flatten_keys m)
  <-> lookup_path (VDict m) (split_dot key) = Some v /\ is_dict v = false.
Proof.
  intros Hwf Hnd. split.
  - now apply flatten_keys_sound.
  - intros [Hl Hv]. rewrite <- (join_split_dot key).
    now apply flatten_keys_complete.
Qed.

Lemma flatten_keys_lists_leaves_witness :
  wf_dict docstring_config = true
  /\ nodots docstring_config = true
  /\ In ("arg2.obj2", VStr "foo") (flatten_keys docstring_config).
Proof.
  split; [reflexivity | split; [reflexivity|]].
  apply (proj2 (flatten_keys_lists_leaves docstring_config "arg2.obj2"
                  (VStr "foo") eq_refl eq_refl)).
  split; reflexivity.
Defined.

(** X2. [flatten_keys] never returns a mapping as a value, whatever the
    keys of the input are. *)
Theorem flatten_keys_no_mapping_value (d : dict) (kv : string * pyval) :
  In kv (flatten_keys d) -> is_dict (snd kv) = false.
Proof. apply flatten_keys_values. Qed.

Lemma flatten_keys_no_mapping_value_witness :
  In ("arg2.obj1", VList [VInt 3; VInt 4]) (flatten_keys docstring_config)
  /\ is_dict (VList [VInt 3; VInt 4]) = false.
Proof.
  assert (In ("arg2.obj1", VList [VInt 3; VInt 4])
             (flatten_keys docstring_config)) as H
    by (right; left; reflexivity).
  split; [exact H|].
  exact (flatten_keys_no_mapping_value docstring_config _ H).
Defined.

(** X3. The flat keys of a nested mapping with unique keys and no dotted
    key are pairwise distinct, so the dictionary built from the flat list
    ([dict(flat_config)] in [parse_known_args]) holds every entry, in the
    same order. *)
Theorem flat_config_keys_distinct (m : dict) :
  wf_dict m = true ->
  nodots m = true ->
  NoDup (keys (flatten_keys m))
  /\ dict_of_pairs (flatten_keys m) = flatten_keys m.
Proof.
  intros Hwf Hnd. pose proof (flatten_keys_NoDup m Hwf Hnd) as H.
  split; [exact H | now apply dict_of_pairs_NoDup].
Qed.

Lemma flat_config_keys_distinct_witness :
  wf_dict priority_config = true
  /\ nodots priority_config = true
  /\ dict_of_pairs (flatten_keys priority_config)
     = flatten_keys priority_config.
Proof.
  split; [reflexivity | split; [reflexivity|]].
  exact (proj2 (flat_config_keys_distinct priority_config eq_refl eq_refl)).
Defined.

(** X4. Expanding the flattened mapping gives the mapping back without its
    sub-mappings that hold no leaf, keys in their original order; when
    every nested mapping holds a leaf, it gives back the mapping itself. *)
Theorem expand_flatten_exact (m : dict) :
  wf_dict m = true ->
  nodots m = true ->
  expand_dict (dict_of_pairs (flatten_keys m)) = prune m
  /\ (leafy m = true -> expand_dict (dict_of_pairs (flatten_keys m)) = m).
Proof.
  intros Hwf Hnd. pose proof (expand_flatten_prune m Hwf Hnd) as H.
  split; [exact H|]. intro Hl. now rewrite H, prune_leafy.
Qed.

Lemma expand_flatten_exact_witness :
  wf_dict docstring_config = true
  /\ nodots docstring_config = true
  /\ leafy docstring_config = true
  /\ expand_dict (dict_of_pairs (flatten_keys docstring_config))
     = docstring_config.
Proof.
  repeat (split; [reflexivity|]).
  exact (proj2 (expand_flatten_exact docstring_config eq_refl eq_refl) eq_refl).
Defined.

(** X5. Flattening the expansion of a flattened mapping gives the same flat
    list, in the same order. *)
Theorem flatten_expand_flatten (m : dict) :
  wf_dict m = true ->
  nodots m = true ->
  flatten_keys (expand_dict (dict_of_pairs (flatten_keys m))) = flatten_keys m.
Proof.
  intros Hwf Hnd. rewrite expand_flatten_prune by assumption.
  apply flatten_keys_prune.
Qed.

Lemma flatten_expand_flatten_witness :
  wf_dict priority_config = true
  /\ nodots priority_config = true
  /\ flatten_keys (expand_dict (dict_of_pairs (flatten_keys priority_config)))
     = flatten_keys priority_config.
Proof.
  split; [reflexivity | split; [reflexivity|]].
  exact (flatten_expand_flatten priority_config eq_refl eq_refl).
Defined.

(** X6. Merging a dictionary into itself changes nothing. *)
Theorem merge_dicts_idempotent (d : dict) :
  wf_dict d = true -> merge_dicts d d = d.
Proof. apply merge_dicts_same. Qed.

Lemma merge_dicts_idempotent_witness :
  wf_dict docstring_config = true
  /\ merge_dicts docstring_config docstring_config = docstring_config.
Proof.
  split; [reflexivity|].
  exact (merge_dicts_idempotent docstring_config eq_refl).
Defined.

(** X7. [merge_dicts] keeps the keys of its first argument in their order
    and appends the keys only the second argument has, in their order: no
    key is dropped or moved. *)
Theorem merge_dicts_key_order (d1 d2 : dict) :
  nodupb (keys d2) = true ->
  keys (merge_dicts d1 d2) = merged_keys d1 d2.
Proof. intro H. apply merge_dicts_keys. now apply nodupb_NoDup. Qed.

Lemma merge_dicts_key_order_witness :
  nodupb (keys docstring_config) = true
  /\ keys (merge_dicts merge_right docstring_config)
     = ["a"; "x"; "arg1"; "arg2"].
Proof.
  split; [reflexivity|].
  exact (merge_dicts_key_order merge_right docstring_config eq_refl).
Defined.

(** X8. In expand mode [args_to_dict] places an entry at the path whose
    segments its key joins, whatever the earlier entries bound there,
    provided the path of every later entry parts ways with it (neither is a
    prefix of the other).  (The namespace holds leaf values: none of them
    is a mapping.) *)
Theorem args_to_dict_entry_found (l1 : list (string * pyval))
    (p : list string) (v : pyval) (later : list (list string * pyval)) :
  leaf_valued l1 = true ->
  is_dict v = false ->
  leaf_valued (map flat_entry later) = true ->
  is_path p = true ->
  forallb (fun pl => is_path (fst pl) && diverge (fst pl) p) later = true ->
  lookup_path
    (VDict (args_to_dict (l1 ++ (join "." p, v) :: map flat_entry later) true))
    p
  = Some v.
Proof.
  intros _ Hv _ Hp Hd. cbn [args_to_dict].
  rewrite expand_dict_from, expand_from_app, expand_from_cons.
  apply expand_from_preserves; [assumption|]. cbn [fst snd].
  rewrite build_child_chain, split_join by assumption.
  apply merge_chain_lookup; [now apply is_path_nonempty | assumption].
Qed.

Lemma args_to_dict_entry_found_witness :
  leaf_valued [("g", VInt 0)] = true
  /\ is_dict (VInt 2) = false
  /\ leaf_valued
       (map flat_entry [(["g"; "name"], VStr "s1"); (["h"], VNone)]) = true
  /\ is_path ["g"; "rate"] = true
  /\ forallb (fun pl => is_path (fst pl) && diverge (fst pl) ["g"; "rate"])
             [(["g"; "name"], VStr "s1"); (["h"], VNone)] = true
  /\ lookup_path
       (VDict (args_to_dict
                 [("g", VInt 0); ("g.rate", VInt 2); ("g.name", VStr "s1");
                  ("h", VNone)] true))
       ["g"; "rate"] = Some (VInt 2).
Proof.
  do 5 (split; [reflexivity|]).
  exact (args_to_dict_entry_found [("g", VInt 0)] ["g"; "rate"] (VInt 2)
           [(["g"; "name"], VStr "s1"); (["h"], VNone)]
           eq_refl eq_refl eq_refl eq_refl eq_refl).
Defined.

(** X9. [expand_dict] leaves no dotted key behind: when the values of the
    flat mapping hold no dotted key themselves, no key of the result, at
    any depth, contains the delimiter. *)
Theorem expand_dict_no_dotted_keys (b : dict) :
  forallb (fun kv => nodots_val (snd kv)) b = true ->
  nodots (expand_dict b) = true.
Proof.
  intro H. rewrite expand_dict_from.
  now apply expand_from_nodots_result.
Qed.

Lemma expand_dict_no_dotted_keys_witness :
  forallb (fun kv => nodots_val (snd kv)) dotted_example = true
  /\ nodots (expand_dict dotted_example) = true.
Proof.
  split; [reflexivity|].
  exact (expand_dict_no_dotted_keys dotted_example eq_refl).
Defined.

(** X10. The override loop of [parse_known_args] keeps the keys of the
    namespace and their order; a key bound in the flattened config takes
    the config value unless the bare key is itself one of the strings of
    [sys.argv], and every other key keeps its value. *)
Theorem override_priority_resolution (args_dict config_dict : dict)
    (argv : list string) (key : string) :
  keys (ensure_override_priority args_dict config_dict argv) = keys args_dict
  /\ dict_get key (ensure_override_priority args_dict config_dict argv)
     = match dict_get key args_dict, dict_get key config_dict with
       | Some x, Some v =>
           if existsb (String.eqb key) argv then Some x else Some v
       | b, _ => b
       end.
Proof.
  split; [apply ensure_override_priority_keys
         | apply ensure_override_priority_formula].
Qed.

(** X11. With distinct flat keys, the registration loop leaves the parser
    holding its earlier actions, stripped of the option strings [--k] of
    the config keys, followed by the config-derived actions in the order
    of the flat config; registering the same config again, as a second
    call of [parse_known_args] on the parser does, leaves the parser
    unchanged. *)
Theorem registration_order_and_rerun (p p' : parser)
    (flat : list (string * pyval)) :
  conflict_handler p = HandlerResolve ->
  nodupb (keys flat) = true ->
  register_config p flat = Ok p' ->
  actions p' = resolve_all (keys flat) (actions p) ++ config_actions flat
  /\ register_config p' flat = Ok p'.
Proof.
  intros Hh Hnd Hreg. apply nodupb_NoDup in Hnd.
  destruct (register_config_rerun p p' flat Hh Hnd Hreg) as [E H].
  split; [now rewrite E | exact H].
Qed.

Lemma registration_order_and_rerun_witness :
  conflict_handler driver = HandlerResolve
  /\ nodupb (keys (flatten_keys priority_config)) = true
  /\ exists p',
       register_config driver (flatten_keys priority_config) = Ok p'
       /\ register_config p' (flatten_keys priority_config) = Ok p'.
Proof.
  split; [reflexivity | split; [reflexivity|]].
  eexists. split; [reflexivity|].
  exact (proj2 (registration_order_and_rerun driver _
                  (flatten_keys priority_config) eq_refl eq_refl eq_refl)).
Defined.

(** X12. When [parse_known_args] returns, the namespace binds exactly the
    destinations of the store arguments the parser then holds (those the
    program declared and those derived from the config), and every
    unrecognized string it returns is one of the strings of
    [sys.argv[1:]].  (The call returns in the model only when no
    destination starts with an underscore: a namespace has such
    attributes from its class, and [hasattr] gives no answer for them.) *)
Theorem returned_namespace_keys (load_config : pyval -> option dict)
    (self self' : parser) (argv : list string) (args : dict)
    (unknown : list string) :
  CustomArgumentParser.parse_known_args load_config self argv
  = Ok (self', (args, unknown)) ->
  (forall k, dict_mem k args = true <-> declares self' k)
  /\ (forall t, In t unknown -> In t (tl argv)).
Proof.
  intro H. apply parse_known_args_inv in H.
  destruct H as [args1 [unk1 [cf [config [ns2 [_ [_ [_ [_ [H2 ->]]]]]]]]]].
  apply parse_namespace_keys in H2. destruct H2 as [Hk Ht].
  split; [|exact Ht]. intro k. rewrite <- Hk.
  rewrite !dict_mem_keys. now rewrite ensure_override_priority_keys.
Qed.

Lemma returned_namespace_keys_witness :
  exists self' args,
    CustomArgumentParser.parse_known_args (one_config priority_config)
      driver unknown_argv = Ok (self', (args, ["--unknown_flag"; "5"]))
    /\ dict_mem "b.x" args = true
    /\ In "5" (tl unknown_argv).
Proof.
  eexists. eexists.
  assert (forall A (x : A), x = x) as R by reflexivity.
  split; [apply R|].
  destruct (returned_namespace_keys (one_config priority_config) driver _
              unknown_argv _ ["--unknown_flag"; "5"] (R _ _)) as [Hk Ht].
  split; [reflexivity|]. apply Ht. right. now left.
Defined.

(** X13. A config leaf whose key [k] is its own destination (it holds no
    dash) and is not itself one of the strings of [sys.argv] is bound to
    its config value in the namespace [parse_known_args] returns, whatever
    the command line holds otherwise.  (The call returns in the model only
    when no destination, [k] included, starts with an underscore.) *)
Theorem config_value_resolution (load_config : pyval -> option dict)
    (self self' : parser) (argv : list string) (args args1 : dict)
    (unknown unknown1 : list string) (configfile : pyval) (config : dict)
    (l1 l2 : list (string * pyval)) (k : string) (v : pyval) :
  conflict_handler self = HandlerResolve ->
  Argparse.parse_known_args self (tl argv) = Ok (args1, unknown1) ->
  dict_get "configfile" args1 = Some configfile ->
  load_config configfile = Some config ->
  flatten_keys config = l1 ++ (k, v) :: l2 ->
  ~ In k (keys l2) ->
  replace_dash (lstrip_dash k) = k ->
  existsb (String.eqb k) argv = false ->
  CustomArgumentParser.parse_known_args load_config self argv
  = Ok (self', (args, unknown)) ->
  dict_get k args = Some v.
Proof.
  intros Hh H1 Hcf Hl Hflat Hk Hdest Hargv H.
  apply parse_known_args_inv in H.
  destruct H as [a1 [u1 [cf [cfg [ns2 [E1 [Ecf [El [Er [E2 ->]]]]]]]]]].
  rewrite H1 in E1. injection E1 as <- <-.
  rewrite Hcf in Ecf. injection Ecf as <-.
  rewrite Hl in El. injection El as <-.
  rewrite Hflat in Er.
  destruct (registration_holder self self' l1 l2 k v Hh Er Hk) as [Hfind _].
  apply find_option_In in Hfind.
  assert (dict_mem k ns2 = true) as Hmem.
  { apply (proj1 (parse_namespace_keys _ _ _ _ E2)).
    exists (config_action k v). repeat split; auto. }
  unfold dict_mem in Hmem.
  destruct (dict_get k ns2) as [x|] eqn:Ex; [|discriminate].
  rewrite ensure_override_priority_formula, Ex, Hflat.
  rewrite dict_of_pairs_last by assumption. now rewrite Hargv.
Qed.

Lemma config_value_resolution_witness :
  conflict_handler driver = HandlerResolve
  /\ flatten_keys priority_config = [("a", VInt 4)] ++ ("b.x", VInt 1) :: []
  /\ replace_dash (lstrip_dash "b.x") = "b.x"
  /\ existsb (String.eqb "b.x") priority_argv = false
  /\ exists self' args unknown,
       CustomArgumentParser.parse_known_args (one_config priority_config)
         driver priority_argv = Ok (self', (args, unknown))
       /\ dict_get "b.x" args = Some (VInt 1).
Proof.
  repeat (split; [reflexivity|]).
  eexists. eexists. eexists.
  assert (forall A (x : A), x = x) as R by reflexivity.
  split; [apply R|].
  eapply (config_value_resolution (one_config priority_config) driver _
            priority_argv _ _ _ _ _ priority_config
            [("a", VInt 4)] [] "b.x" (VInt 1)
            eq_refl (R _ _) (R _ _) (R _ _) eq_refl (fun F : False => F)
            eq_refl eq_refl (R _ _)).
Defined.

(** X14. [parse_known_args] reads [args.configfile] after the first pass:
    on a parser with no argument whose destination is [configfile] it
    never returns, and whenever the first pass itself returns it raises
    [AttributeError]. *)
Theorem missing_configfile_attribute (load_config : pyval -> option dict)
    (self : parser) (argv : list string) :
  ~ declares self "configfile" ->
  is_ok (CustomArgumentParser.parse_known_args load_config self argv) = false
  /\ forall args1 unknown1,
       Argparse.parse_known_args self (tl argv) = Ok (args1, unknown1) ->
       CustomArgumentParser.parse_known_args load_config self argv
       = Raise (AttributeError "configfile").
Proof.
  intro Hno.
  assert (forall args1 unknown1,
             Argparse.parse_known_args self (tl argv) = Ok (args1, unknown1) ->
             CustomArgumentParser.parse_known_args load_config self argv
             = Raise (AttributeError "configfile")) as H.
  { intros args1 unk1 H1. unfold CustomArgumentParser.parse_known_args.
    rewrite H1. cbn [bind].
    destruct (dict_get "configfile" args1) as [x|] eqn:Eg; [|reflexivity].
    exfalso. apply Hno.
    apply (proj1 (parse_namespace_keys _ _ _ _ H1)).
    unfold dict_mem. now rewrite Eg. }
  split; [|exact H].
  destruct (Argparse.parse_known_args self (tl argv)) as [[a1 u1]| | |] eqn:E.
  - now rewrite (H a1 u1).
  - unfold CustomArgumentParser.parse_known_args. now rewrite E.
  - unfold CustomArgumentParser.parse_known_args. now rewrite E.
  - unfold CustomArgumentParser.parse_known_args. now rewrite E.
Qed.

Lemma missing_configfile_attribute_witness :
  ~ declares (CustomArgumentParser.init (mkKwargs HandlerError true))
      "configfile"
  /\ CustomArgumentParser.parse_known_args (one_config priority_config)
       (CustomArgumentParser.init (mkKwargs HandlerError true))
       ["prog"; "--a"; "3"]
     = Raise (AttributeError "configfile").
Proof.
  assert (~ declares (CustomArgumentParser.init (mkKwargs HandlerError true))
            "configfile") as Hno.
  { intros [a [Hin [Hs _]]]. destruct Hin as [<- | []]. discriminate. }
  split; [exact Hno|].
  eapply (proj2 (missing_configfile_attribute (one_config priority_config)
                   _ ["prog"; "--a"; "3"] Hno)).
  reflexivity.
Defined.

(** X15. A second call on the same parser, as the module's driver makes
    ([parse_known_args] and then [parse_args]), gives the same result and
    leaves the parser as it is, when the flat config keys are distinct and
    the second pass resolved [configfile] to the path the first pass
    read. *)
Theorem parse_known_args_again (load_config : pyval -> option dict)
    (self self' : parser) (argv : list string) (args args1 ns2 : dict)
    (unknown unknown1 : list string) (configfile : pyval) (config : dict) :
  conflict_handler self = HandlerResolve ->
  Argparse.parse_known_args self (tl argv) = Ok (args1, unknown1) ->
  dict_get "configfile" args1 = Some configfile ->
  load_config configfile = Some config ->
  nodupb (keys (flatten_keys config)) = true ->
  CustomArgumentParser.parse_known_args load_config self argv
  = Ok (self', (args, unknown)) ->
  Argparse.parse_known_args self' (tl argv) = Ok (ns2, unknown) ->
  dict_get "configfile" ns2 = Some configfile ->
  CustomArgumentParser.parse_known_args load_config self' argv
  = Ok (self', (args, unknown))
  /\ CustomArgumentParser.parse_args load_config self' argv
     = CustomArgumentParser.parse_args load_config self argv.
Proof.
  intros Hh H1 Hcf Hl Hnd H H2 Hcf2.
  pose proof H as Hinv. apply parse_known_args_inv in Hinv.
  destruct Hinv as [a1 [u1 [cf [cfg [n2 [E1 [Ecf [El [Er [E2 ->]]]]]]]]]].
  rewrite H1 in E1. injection E1 as <- <-.
  rewrite Hcf in Ecf. injection Ecf as <-.
  rewrite Hl in El. injection El as <-.
  rewrite H2 in E2. injection E2 as <-.
  apply nodupb_NoDup in Hnd.
  destruct (register_config_rerun self self' _ Hh Hnd Er) as [_ Hre].
  assert (CustomArgumentParser.parse_known_args load_config self' argv
          = Ok (self',
                (ensure_override_priority
                   ns2 (dict_of_pairs (flatten_keys config)) argv, unknown)))
    as Hagain
    by (apply (parse_known_args_stages load_config self' self' argv ns2 ns2
                 unknown unknown configfile config); assumption).
  split; [exact Hagain|].
  unfold CustomArgumentParser.parse_args. now rewrite Hagain, H.
Qed.

Lemma parse_known_args_again_witness :
  conflict_handler driver = HandlerResolve
  /\ nodupb (keys (flatten_keys priority_config)) = true
  /\ exists self' args unknown,
       CustomArgumentParser.parse_known_args (one_config priority_config)
         driver priority_argv = Ok (self', (args, unknown))
       /\ CustomArgumentParser.parse_known_args (one_config priority_config)
            self' priority_argv = Ok (self', (args, unknown)).
Proof.
  split; [reflexivity | split; [reflexivity|]].
  eexists. eexists. eexists.
  assert (forall A (x : A), x = x) as R by reflexivity.
  split; [apply R|].
  eapply (proj1 (parse_known_args_again (one_config priority_config) driver _
                   priority_argv _ _ _ _ _ _ priority_config
                   eq_refl (R _ _) (R _ _) (R _ _) eq_refl (R _ _)
                   (R _ _) (R _ _))).
Defined.
